(** * Garman-Kohlhagen pricing and implied volatility (GBS_FX_pricing)

    A shallow embedding of the notebook [GBS_FX_pricing.ipynb]: the limits
    class [_GBS_Limites], the input checks, the closed-form pricing function
    [_gbs], the starting point [_vol_implicite_approx], the Newton-Raphson
    search [_newton_vol_implicite] and the bracketing search
    [_rech_dichotomique_vol_implicite].

    Numbers.  Python floats are idealised as real numbers ([R]); rounding,
    underflow, overflow and NaN are outside the model.  What Python raises
    on real arguments is kept: a division of Python floats by zero raises
    [ZeroDivisionError], [math.sqrt] of a negative number and [math.log] of a
    non-positive number raise [ValueError].  Two consequences:
    - [math.exp] and [**] raise [OverflowError] on floats when the result
      exceeds the largest float; the model has no such exception.  The
      statements whose point is that a function returns, or which exception
      it raises, carry bounds on the inputs under which no overflow arises
      ([gbs_computable], [market_in_range]); the others relate the values
      that are returned;
    - the prices that [_gbs] returns are numpy.float64 (products with
      [norm.cdf]), on which a division by zero does not raise: the
      interpolation step of the bracketing search is modelled accordingly
      ([interpolate]).

    Effects.  Every function of the notebook runs in the monad [M]: a log of
    events (what [print] wrote, and one [Call] mark per evaluation of the
    pricing function by a search) together with either an exception or a
    result.  The [while] loops are recursive on the number of steps left;
    [max_steps] is a natural number. *)

From Stdlib Require Import Reals Ranalysis5 Lra Lia String List Bool Arith.
Import ListNotations.

Local Open Scope R_scope.

(** ** Exceptions, events and the monad *)

Inductive exn : Type :=
| ZeroDivisionError
| ValueError
| GBS_CalculationError (best_estimate price_diff required_precision : R).

(** What the notebook prints.  The messages that format a value carry it. *)
Inductive diagnostic : Type :=
| InvalidOptionType (option_type : string)
| InvalidStrike
| InvalidSpot
| InvalidTime (t : R)
| InvalidCarry (b : R)
| InvalidRate (r : R)
| InvalidVol (v : R)
| VolOutOfBounds.

Inductive event : Type :=
| Print (d : diagnostic)
| Call (v : R).

Definition M (A : Type) : Type := (list event * (exn + A))%type.

Definition ret {A : Type} (a : A) : M A := ([], inr a).

Definition raise {A : Type} (e : exn) : M A := ([], inl e).

Definition bind {A B : Type} (m : M A) (f : A -> M B) : M B :=
  match m with
  | (l, inl e) => (l, inl e)
  | (l, inr a) => (l ++ fst (f a), snd (f a))
  end.

Definition print (d : diagnostic) : M unit := ([Print d], inr tt).

Definition mark_call (v : R) : M unit := ([Call v], inr tt).

Declare Scope py_scope.
Delimit Scope py_scope with py.
Notation "x <- m ;; k" := (bind m (fun x => k))
  (at level 61, m at next level, right associativity) : py_scope.
Notation "m ;;; k" := (bind m (fun _ => k))
  (at level 61, right associativity) : py_scope.
Local Open Scope py_scope.

Definition log_of {A : Type} (m : M A) : list event := fst m.
Definition outcome {A : Type} (m : M A) : exn + A := snd m.

(** ** Comparisons and partial arithmetic *)

Definition Rleb (a b : R) : bool := if Rle_dec a b then true else false.
Definition Rltb (a b : R) : bool := if Rlt_dec a b then true else false.
Definition Reqb (a b : R) : bool := if Req_dec_T a b then true else false.

Definition py_div (a b : R) : M R :=
  if Reqb b 0 then raise ZeroDivisionError else ret (a / b).

Definition math_sqrt (a : R) : M R :=
  if Rltb a 0 then raise ValueError else ret (sqrt a).

Definition math_log (a : R) : M R :=
  if Rleb a 0 then raise ValueError else ret (ln a).

(** ** The limits of the inputs: class [_GBS_Limites] *)

Definition MAX32 : R := 2147483248.
Definition MIN_T : R := 1 / 1000.
Definition MIN_X : R := 1 / 100.
Definition MIN_FS : R := 1 / 100.
Definition MIN_V : R := 5 / 1000.
Definition MAX_T : R := 100.
Definition MAX_X : R := MAX32.
Definition MAX_FS : R := MAX32.
Definition MIN_TA : R := 0.
Definition MIN_b : R := -1.
Definition MIN_r : R := -1.
Definition MAX_b : R := 1.
Definition MAX_r : R := 1.
Definition MAX_V : R := 1.

(** ** Input checks *)

Definition _test_option_type (option_type : string) : M unit :=
  if negb (String.eqb option_type "c") && negb (String.eqb option_type "p")
  then print (InvalidOptionType option_type)
  else ret tt.

(** One range test of [_gbs_test_inputs]:
    [if (a < lo) or (a > hi): print(...)]. *)
Definition check_range (lo hi a : R) (d : diagnostic) : M unit :=
  if Rltb a lo || Rltb hi a then print d else ret tt.

Definition _gbs_test_inputs (option_type : string) (fs x t r b v : R) : M unit :=
  _test_option_type option_type ;;;
  check_range MIN_X MAX_X x InvalidStrike ;;;
  check_range MIN_FS MAX_FS fs InvalidSpot ;;;
  check_range MIN_T MAX_T t (InvalidTime t) ;;;
  check_range MIN_b MAX_b b (InvalidCarry b) ;;;
  check_range MIN_r MAX_r r (InvalidRate r) ;;;
  check_range MIN_V MAX_V v (InvalidVol v).

(** ** The standard normal density and distribution function

    [scipy.stats.norm.pdf] is the density exp(-x^2/2)/sqrt(2 pi).
    [scipy.stats.norm.cdf] is modelled by the mathematical function it
    computes, written as its Maclaurin expansion
      1/2 + (1/sqrt(2 pi)) * sum_n (-1)^n x^(2n+1) / (n! 2^n (2n+1)),
    that is 1/2 + x * cdf_series (x^2) / sqrt(2 pi), where [cdf_series] is
    the everywhere convergent power series with coefficients [cdf_coeff].
    It takes the value 1/2 at 0 and its derivative is the density
    ([norm_cdf_0], [norm_cdf_deriv]). *)

Definition cdf_coeff (n : nat) : R :=
  (-1) ^ n / (INR (fact n) * 2 ^ n * INR (2 * n + 1)).

Definition cdf_term (n : nat) : R := / (INR (fact n) * 2 ^ n * INR (2 * n + 1)).

Lemma cdf_den_pos n : 0 < INR (fact n) * 2 ^ n * INR (2 * n + 1).
Proof.
  apply Rmult_lt_0_compat; [apply Rmult_lt_0_compat|].
  - apply INR_fact_lt_0.
  - apply pow_lt; lra.
  - apply lt_0_INR; lia.
Qed.

Lemma cdf_coeff_neq n : cdf_coeff n <> 0.
Proof.
  unfold cdf_coeff, Rdiv. apply Rmult_integral_contrapositive_currified.
  - apply pow_nonzero; lra.
  - apply Rinv_neq_0_compat. pose proof (cdf_den_pos n); lra.
Qed.

Lemma cdf_coeff_ratio n :
  cdf_coeff (S n) / cdf_coeff n = - (INR (2 * n + 1) / (2 * INR (S n) * INR (2 * S n + 1))).
Proof.
  unfold cdf_coeff.
  pose proof (cdf_den_pos n) as Hn. 
  assert (H1 : INR (fact n) <> 0) by apply INR_fact_neq_0.
  assert (H2 : (2:R) ^ n <> 0) by (apply pow_nonzero; lra).
  assert (H3 : INR (2 * n + 1) <> 0) by (apply not_0_INR; lia).
  assert (H4 : INR (2 * S n + 1) <> 0) by (apply not_0_INR; lia).
  assert (H5 : INR (S n) <> 0) by (apply not_0_INR; lia).
  assert (H6 : (-1) ^ n <> 0) by (apply pow_nonzero; lra).
  rewrite fact_simpl, mult_INR. simpl pow.
  field. repeat split; assumption.
Qed.

Lemma Alembert_cdf : Un_cv (fun n => Rabs (cdf_coeff (S n) / cdf_coeff n)) 0.
Proof.
  intros eps Heps.
  destruct (archimed_cor1 eps Heps) as [N [HN HNpos]].
  exists N. intros n Hn.
  rewrite cdf_coeff_ratio.
  unfold Rdist. rewrite Rminus_0_r, Rabs_Rabsolu, Rabs_Ropp.
  assert (P1 : 0 < INR (S n)) by (apply lt_0_INR; lia).
  assert (P2 : 0 < INR (2 * S n + 1)) by (apply lt_0_INR; lia).
  assert (P3 : 0 < INR (2 * n + 1)) by (apply lt_0_INR; lia).
  assert (P4 : INR (2 * n + 1) < INR (2 * S n + 1)) by (apply lt_INR; lia).
  assert (P5 : INR N < INR (S n)) by (apply lt_INR; lia).
  assert (P6 : 0 < INR N) by (apply lt_0_INR; lia).
  rewrite Rabs_right.
  2:{ apply Rle_ge. apply Rmult_le_pos; [lra|]. left. apply Rinv_0_lt_compat.
      apply Rmult_lt_0_compat; [lra|assumption]. }
  apply Rlt_trans with (/ INR N); [|assumption].
  apply Rmult_lt_reg_r with (2 * INR (S n) * INR (2 * S n + 1)).
  { apply Rmult_lt_0_compat; [lra|assumption]. }
  unfold Rdiv. rewrite Rmult_assoc, Rinv_l, Rmult_1_r.
  2:{ apply Rgt_not_eq. apply Rmult_lt_0_compat; [lra|assumption]. }
  apply Rmult_lt_reg_l with (INR N); [assumption|].
  rewrite <- Rmult_assoc, Rinv_r, Rmult_1_l by lra.
  nra.
Qed.

Lemma exist_cdf_series (y : R) : { l : R | Pser cdf_coeff y l }.
Proof. exact (Alembert_C3 cdf_coeff y cdf_coeff_neq Alembert_cdf). Qed.

Definition cdf_series (y : R) : R := proj1_sig (exist_cdf_series y).

Definition norm_pdf (x : R) : R := exp (- (x * x) / 2) / sqrt (2 * PI).

Definition norm_cdf (x : R) : R := 1 / 2 + x * cdf_series (x * x) / sqrt (2 * PI).

(** ** The pricing function [_gbs] *)

(** What [_gbs] returns: value, delta, gamma, theta, vega, rho. *)
Definition pricing : Type := (R * R * R * R * R * R)%type.

Definition value_of (p : pricing) : R := let '(value, _, _, _, _, _) := p in value.
Definition delta_of (p : pricing) : R := let '(_, delta, _, _, _, _) := p in delta.
Definition gamma_of (p : pricing) : R := let '(_, _, gamma, _, _, _) := p in gamma.
Definition theta_of (p : pricing) : R := let '(_, _, _, theta, _, _) := p in theta.
Definition vega_of (p : pricing) : R := let '(_, _, _, _, vega, _) := p in vega.
Definition rho_of (p : pricing) : R := let '(_, _, _, _, _, rho) := p in rho.

Definition _gbs (option_type : string) (fs x t r b v : R) : M pricing :=
  _gbs_test_inputs option_type fs x t r b v ;;;
  t__sqrt <- math_sqrt t ;;
  q <- py_div fs x ;;
  lg <- math_log q ;;
  d1 <- py_div (lg + (b + (v * v) / 2) * t) (v * t__sqrt) ;;
  let d2 := d1 - v * t__sqrt in
  if String.eqb option_type "c" then
    let value := fs * exp ((b - r) * t) * norm_cdf d1
                 - x * exp (- r * t) * norm_cdf d2 in
    let delta := exp ((b - r) * t) * norm_cdf d1 in
    gamma <- py_div (exp ((b - r) * t) * norm_pdf d1) (fs * v * t__sqrt) ;;
    theta1 <- py_div (- (fs * v * exp ((b - r) * t) * norm_pdf d1)) (2 * t__sqrt) ;;
    let theta := theta1 - (b - r) * fs * exp ((b - r) * t) * norm_cdf d1
                 - r * x * exp (- r * t) * norm_cdf d2 in
    let vega := exp ((b - r) * t) * fs * t__sqrt * norm_pdf d1 in
    let rho := x * t * exp (- r * t) * norm_cdf d2 in
    ret (value, delta, gamma, theta, vega, rho)
  else
    let value := x * exp (- r * t) * norm_cdf (- d2)
                 - (fs * exp ((b - r) * t) * norm_cdf (- d1)) in
    let delta := - exp ((b - r) * t) * norm_cdf (- d1) in
    gamma <- py_div (exp ((b - r) * t) * norm_pdf d1) (fs * v * t__sqrt) ;;
    theta1 <- py_div (- (fs * v * exp ((b - r) * t) * norm_pdf d1)) (2 * t__sqrt) ;;
    let theta := theta1 + (b - r) * fs * exp ((b - r) * t) * norm_cdf (- d1)
                 + r * x * exp (- r * t) * norm_cdf (- d2) in
    let vega := exp ((b - r) * t) * fs * t__sqrt * norm_pdf d1 in
    let rho := - x * t * exp (- r * t) * norm_cdf (- d2) in
    ret (value, delta, gamma, theta, vega, rho).

(** ** Implied volatility *)

(** The starting point of both searches.  As in the notebook, the name [b]
    is bound again after the carry has been used.  The price [cp] is a
    Python float, as the calls of the notebook pass it, so that the last
    division raises at t = 0; on a numpy.float64 price it would give an
    infinity there. *)
Definition _vol_implicite_approx (option_type : string) (fs x t r b cp : R) : M R :=
  _test_option_type option_type ;;;
  let ebrt := exp ((b - r) * t) in
  let ert := exp (- r * t) in
  s2pi <- math_sqrt (2 * PI) ;;
  a <- py_div s2pi (fs * ebrt + x * ert) ;;
  let payoff := if String.eqb option_type "c"
                then fs * ebrt - x * ert
                else x * ert - fs * ebrt in
  let b := cp - payoff / 2 in
  let c := (payoff ^ 2) / PI in
  s <- math_sqrt (b ^ 2 + c) ;;
  st <- math_sqrt t ;;
  v <- py_div (a * (b + s)) st ;;
  ret v.

(** The type of the [val_fn] argument of the searches. *)
Definition pricer : Type := string -> R -> R -> R -> R -> R -> R -> M pricing.

(** One evaluation of the pricing function by a search, marked in the log. *)
Definition call_val_fn (val_fn : pricer) (option_type : string)
    (fs x t r b v : R) : M pricing :=
  mark_call v ;;; val_fn option_type fs x t r b v.

(** *** The bracketing search [_rech_dichotomique_vol_implicite] *)

Record bisect_state : Type := mk_bisect
  { v_low : R; v_high : R; v_mid : R; cp_mid : R; diff : R }.

(** The interpolated estimate, clamped into the band:
    [v_low + (cp - cp_low) * (v_high - v_low) / (cp_high - cp_low)], then
    [max(MIN_V, .)], then [min(MAX_V, .)].  The prices are numpy.float64 and
    their division by zero does not raise: it gives nan for 0/0 and an
    infinity with the sign of the numerator otherwise.  [max] and [min]
    compare with [>] and [<], which are false on nan: they leave MIN_V for
    nan and for -inf, and MAX_V for +inf. *)
Definition interpolate (v_low v_high cp cp_low cp_high : R) : R :=
  if Reqb (cp_high - cp_low) 0 then
    if Rltb 0 ((cp - cp_low) * (v_high - v_low)) then MAX_V else MIN_V
  else
    let v_mid := v_low + (cp - cp_low) * (v_high - v_low) / (cp_high - cp_low) in
    let v_mid := Rmax MIN_V v_mid in
    Rmin MAX_V v_mid.

(** One pass through the body of the [while] loop. *)
Definition bisect_body (val_fn : pricer) (option_type : string)
    (fs x t r b cp : R) (st : bisect_state) : M bisect_state :=
  let v_low := if Rltb (cp_mid st) cp then v_mid st else v_low st in
  let v_high := if Rltb (cp_mid st) cp then v_high st else v_mid st in
  p_low <- call_val_fn val_fn option_type fs x t r b v_low ;;
  let cp_low := value_of p_low in
  p_high <- call_val_fn val_fn option_type fs x t r b v_high ;;
  let cp_high := value_of p_high in
  let v_mid := interpolate v_low v_high cp cp_low cp_high in
  p_mid <- call_val_fn val_fn option_type fs x t r b v_mid ;;
  let cp_mid := value_of p_mid in
  let diff := Rabs (cp - cp_mid) in
  ret (mk_bisect v_low v_high v_mid cp_mid diff).

(** The [while] loop; [steps_left] is [max_steps - current_step], so that
    [current_step < max_steps] reads [steps_left <> 0]. *)
Fixpoint bisect_loop (val_fn : pricer) (option_type : string)
    (fs x t r b cp precision : R) (steps_left : nat) (st : bisect_state)
    : M bisect_state :=
  match steps_left with
  | O => ret st
  | S n =>
      if Rltb precision (diff st) then
        st' <- bisect_body val_fn option_type fs x t r b cp st ;;
        bisect_loop val_fn option_type fs x t r b cp precision n st'
      else ret st
  end.

(** The test after the loop. *)
Definition bisect_finish (cp precision : R) (st : bisect_state) : M R :=
  if Rltb (Rabs (cp - cp_mid st)) precision then ret (v_mid st)
  else raise (GBS_CalculationError (v_mid st) (diff st) precision).

Definition _rech_dichotomique_vol_implicite (val_fn : pricer)
    (option_type : string) (fs x t r b cp precision : R) (max_steps : nat) : M R :=
  v_mid <- _vol_implicite_approx option_type fs x t r b cp ;;
  let wide := Rleb v_mid MIN_V || Rleb MAX_V v_mid in
  let v_low := if wide then MIN_V else Rmax MIN_V (v_mid * (5 / 10)) in
  let v_high := if wide then MAX_V else Rmin MAX_V (v_mid * (15 / 10)) in
  let v_mid := if wide then (v_low + v_high) / 2 else v_mid in
  p_mid <- call_val_fn val_fn option_type fs x t r b v_mid ;;
  let cp_mid := value_of p_mid in
  let diff := Rabs (cp - cp_mid) in
  st <- bisect_loop val_fn option_type fs x t r b cp precision max_steps
          (mk_bisect v_low v_high v_mid cp_mid diff) ;;
  bisect_finish cp precision st.

(** *** The Newton-Raphson search [_newton_vol_implicite] *)

Record newton_state : Type := mk_newton
  { nr_v : R; nr_value : R; nr_vega : R; nr_min_diff : R }.

(** The condition of the [while] loop, apart from the step counter:
    [precision <= abs(cp - value) <= min_diff]. *)
Definition newton_guard (cp precision : R) (st : newton_state) : bool :=
  Rleb precision (Rabs (cp - nr_value st))
  && Rleb (Rabs (cp - nr_value st)) (nr_min_diff st).

(** One pass through the body of the [while] loop.  The boolean is [true]
    when the body left the loop by [break]. *)
Definition newton_body (val_fn : pricer) (option_type : string)
    (fs x t r b cp : R) (st : newton_state) : M (bool * newton_state) :=
  d <- py_div (nr_value st - cp) (nr_vega st) ;;
  let v := nr_v st - d in
  if Rltb MAX_V v || Rltb v MIN_V then
    print VolOutOfBounds ;;;
    ret (true, mk_newton v (nr_value st) (nr_vega st) (nr_min_diff st))
  else
    p <- call_val_fn val_fn option_type fs x t r b v ;;
    let min_diff := Rmin (Rabs (cp - value_of p)) (nr_min_diff st) in
    ret (false, mk_newton v (value_of p) (vega_of p) min_diff).

(** The [while] loop; [steps_left] is [max_steps - countr]. *)
Fixpoint newton_loop (val_fn : pricer) (option_type : string)
    (fs x t r b cp precision : R) (steps_left : nat) (st : newton_state)
    : M newton_state :=
  match steps_left with
  | O => ret st
  | S n =>
      if newton_guard cp precision st then
        br <- newton_body val_fn option_type fs x t r b cp st ;;
        if fst br then ret (snd br)
        else newton_loop val_fn option_type fs x t r b cp precision n (snd br)
      else ret st
  end.

(** The test after the loop: return [v], or fall back on the bracketing
    search. *)
Definition newton_finish (val_fn : pricer) (option_type : string)
    (fs x t r b cp precision : R) (max_steps : nat) (st : newton_state) : M R :=
  if Rltb (Rabs (cp - nr_value st)) precision then ret (nr_v st)
  else _rech_dichotomique_vol_implicite val_fn option_type fs x t r b cp
         precision max_steps.

Definition _newton_vol_implicite (val_fn : pricer) (option_type : string)
    (x fs t b r cp precision : R) (max_steps : nat) : M R :=
  _test_option_type option_type ;;;
  v <- _vol_implicite_approx option_type fs x t r b cp ;;
  let v := Rmax MIN_V v in
  let v := Rmin MAX_V v in
  p <- call_val_fn val_fn option_type fs x t r b v ;;
  let min_diff := Rabs (cp - value_of p) in
  st <- newton_loop val_fn option_type fs x t r b cp precision max_steps
          (mk_newton v (value_of p) (vega_of p) min_diff) ;;
  newton_finish val_fn option_type fs x t r b cp precision max_steps st.

Definition default_precision : R := 1 / 100000.
Definition default_max_steps : nat := 100.

Definition _gbs_vol_implicite (option_type : string)
    (fs x t r b cp precision : R) (max_steps : nat) : M R :=
  _newton_vol_implicite _gbs option_type x fs t b r cp precision max_steps.

Definition euro_vol_implicite (option_type : string) (fs x t r q cp : R) : M R :=
  let b := r - q in
  _gbs_vol_implicite option_type fs x t r b cp default_precision default_max_steps.

(** ** The entry points that print their result

    [black_scholes] and [garman_kohlhagen] write, after whatever [_gbs]
    wrote, one line with the six numbers.  Their log is therefore a list of
    [output]s: an event of [_gbs], or the report of a tuple. *)

Inductive output : Type :=
| Diag (e : event)
| Report (p : pricing).

Definition black_scholes (option_type : string) (fs x t r v : R)
    : list output * (exn + pricing) :=
  let b := r in
  match _gbs option_type fs x t r b v with
  | (l, inl e) => (map Diag l, inl e)
  | (l, inr bs) =>
      (map Diag l ++ [Report bs] ++ map Diag (log_of (_gbs option_type fs x t r b v)),
       outcome (_gbs option_type fs x t r b v))
  end.

Definition garman_kohlhagen (option_type : string) (fs x t r rf v : R)
    : list output * (exn + pricing) :=
  let b := r - rf in
  match _gbs option_type fs x t r b v with
  | (l, inl e) => (map Diag l, inl e)
  | (l, inr gk) => (map Diag l ++ [Report gk], inr gk)
  end.

(** * Vocabulary of the statements *)

(** The Domain Limits, as [_gbs_test_inputs] tests them. *)
Definition within_limits (fs x t r b v : R) : Prop :=
  MIN_X <= x <= MAX_X /\ MIN_FS <= fs <= MAX_FS /\ MIN_T <= t <= MAX_T /\
  MIN_b <= b <= MAX_b /\ MIN_r <= r <= MAX_r /\ MIN_V <= v <= MAX_V.

(** The two arguments of the distribution function, as the formulas of the
    model write them. *)
Definition d1_of (fs x t b v : R) : R :=
  (ln (fs / x) + (b + v * v / 2) * t) / (v * sqrt t).
Definition d2_of (fs x t b v : R) : R := d1_of fs x t b v - v * sqrt t.

(** The inputs on which no arithmetic operation of [_gbs] raises. *)
Definition gbs_defined (fs x t v : R) : Prop :=
  0 <= t /\ x <> 0 /\ 0 < fs / x /\ v * sqrt t <> 0.

(** Inputs, inside the Domain Limits or not, on which moreover every
    intermediate result of [_gbs] stays within the range of the floats: spot
    and strike between 10^-6 and 10^12, time and volatility between 10^-6
    and 10^6, carry and rate between -1000 and 1000, and both exponents at
    most 600 ([math.exp] raises [OverflowError] above 709.78). *)
Definition gbs_computable (fs x t r b v : R) : Prop :=
  1 / 1000000 <= fs <= 1000000000000 /\ 1 / 1000000 <= x <= 1000000000000 /\
  1 / 1000000 <= t <= 1000000 /\ 1 / 1000000 <= v <= 1000000 /\
  -1000 <= b <= 1000 /\ -1000 <= r <= 1000 /\
  (b - r) * t <= 600 /\ - r * t <= 600.

(** The volatilities at which a run evaluated the pricing function. *)
Fixpoint calls (l : list event) : list R :=
  match l with
  | [] => []
  | Call v :: l' => v :: calls l'
  | Print _ :: l' => calls l'
  end.

Definition in_band (v : R) : Prop := MIN_V <= v <= MAX_V.

(** [sat m Q]: every evaluation made by the run [m] is inside the band, and
    a result of [m], if there is one, satisfies [Q]. *)
Definition sat {A : Type} (m : M A) (Q : A -> Prop) : Prop :=
  Forall in_band (calls (log_of m)) /\ forall a, outcome m = inr a -> Q a.

Definition nocalls {A : Type} (m : M A) : Prop := calls (log_of m) = [].

Section SearchVocabulary.

Variable val_fn : pricer.
Variable option_type : string.
Variables fs x t r b cp precision : R.

(** [value] is the price that [val_fn] returns at volatility [v]. *)
Definition priced (v value : R) : Prop :=
  exists p, outcome (val_fn option_type fs x t r b v) = inr p /\ value_of p = value.

(** What a search may return: a volatility of the band at which the price
    is within [precision] of [cp]. *)
Definition solves (v : R) : Prop :=
  in_band v /\ exists value, priced v value /\ Rabs (cp - value) < precision.

Definition bisect_inv (st : bisect_state) : Prop :=
  in_band (v_low st) /\ in_band (v_high st) /\ in_band (v_mid st) /\
  priced (v_mid st) (cp_mid st).

(** In the Newton-Raphson loop the state holds the price at its
    volatility; after a [break] it holds an updated volatility with the
    price of the one before, which is not within [precision] of [cp]. *)
Definition newton_inv (st : newton_state) : Prop :=
  in_band (nr_v st) /\ priced (nr_v st) (nr_value st).

Definition newton_post (st : newton_state) : Prop :=
  newton_inv st \/ precision <= Rabs (cp - nr_value st).

End SearchVocabulary.

(** The smallest of the errors [e :: errs]. *)
Fixpoint smallest (e : R) (errs : list R) : R :=
  match errs with
  | [] => e
  | e' :: errs' => Rmin e (smallest e' errs')
  end.

(** The passes of the Newton-Raphson loop that came back to the loop's
    condition.  [newton_passes ... st0 errs log st]: from the state [st0]
    the loop found its condition true and ran its body [length errs] times,
    without [break] and without exception, writing [log], and stands at
    [st].  [errs] holds the errors |cp - value| of the states before [st],
    the most recent first. *)
Inductive newton_passes (val_fn : pricer) (option_type : string)
    (fs x t r b cp precision : R) (st0 : newton_state)
    : list R -> list event -> newton_state -> Prop :=
| passes_none :
    newton_passes val_fn option_type fs x t r b cp precision st0 [] [] st0
| passes_next errs log st log' st' :
    newton_passes val_fn option_type fs x t r b cp precision st0 errs log st ->
    newton_guard cp precision st = true ->
    newton_body val_fn option_type fs x t r b cp st = (log', inr (false, st')) ->
    newton_passes val_fn option_type fs x t r b cp precision st0
      (Rabs (cp - nr_value st) :: errs) (log ++ log') st'.

(** Two runs are [alike] when they end the same way (the same exception or
    the same result) after evaluating the pricing function at the same
    volatilities; what they print may differ. *)
Definition alike {A : Type} (m1 m2 : M A) : Prop :=
  outcome m1 = outcome m2 /\ calls (log_of m1) = calls (log_of m2).

(** ** Inputs used as examples *)

(** A pricing function that is linear in the volatility and reports a vega
    ten times too small, so that a Newton-Raphson step overshoots. *)
Definition overshooting_pricer : pricer :=
  fun _ _ _ _ _ _ v => ret (10 * v, 0, 0, 0, 1, 0).

(** The price, at volatility v, of the at-the-money call with
    spot = strike = 1, t = 1/100 and no rates (see [gbs_atm]). *)
Definition atm_price (v : R) : R :=
  v * cdf_series (v * v / 400) / (10 * sqrt (2 * PI)).

(** The starting point computed from the price of the at-the-money call
    with spot = strike = 1, t = 1/100, no rates and volatility 1/2. *)
Definition atm_start : R := cdf_series (1 / 1600) / 2.

(** The absolute values of the terms of [cdf_series] at y. *)
Definition cdf_alt (y : R) (n : nat) : R := cdf_term n * y ^ n.

(** The terms of the series of the density exp(-y^2/2), and the partial
    sums of the series of y * cdf_series (y^2), whose derivatives they are. *)
Definition pdf_term (k : nat) (y : R) : R := / INR (fact k) * (- (y * y) / 2) ^ k.

Definition cdf_poly (n : nat) (y : R) : R :=
  sum_f_R0 (fun k => cdf_coeff k * y ^ (2 * k + 1)) n.

(** ** Vocabulary of the further properties *)

(** The value that [_gbs] returns at a volatility, as a real function of the
    volatility (0 where [_gbs] raises). *)
Definition gbs_value (ot : string) (fs x t r b v : R) : R :=
  match outcome (_gbs ot fs x t r b v) with
  | inr p => value_of p
  | inl _ => 0
  end.

(** The formulas of the call value and of the vega. *)
Definition call_formula (fs x t r b v : R) : R :=
  fs * exp ((b - r) * t) * norm_cdf (d1_of fs x t b v)
  - x * exp (- r * t) * norm_cdf (d2_of fs x t b v).

Definition vega_formula (fs x t r b v : R) : R :=
  exp ((b - r) * t) * fs * sqrt t * norm_pdf (d1_of fs x t b v).

(** The number of evaluations of the pricing function that a run made. *)
Definition evaluations {A : Type} (m : M A) : nat := length (calls (log_of m)).

(** [ends m Q P]: the run [m] ends with a result that satisfies [Q] or with
    an exception that satisfies [P]. *)
Definition ends {A : Type} (m : M A) (Q : A -> Prop) (P : exn -> Prop) : Prop :=
  match outcome m with
  | inr a => Q a
  | inl e => P e
  end.

(** Spot, strike, carry and rate inside the Domain Limits, and a price of at
    most MAX32 in absolute value: with a time of at most MAX_T in absolute
    value, no exponential, square or product of the starting point and of
    [_gbs] leaves the range of the floats. *)
Definition market_in_range (fs x r b cp : R) : Prop :=
  MIN_X <= x <= MAX_X /\ MIN_FS <= fs <= MAX_FS /\
  MIN_b <= b <= MAX_b /\ MIN_r <= r <= MAX_r /\ Rabs cp <= MAX32.

(** The one exception left to a search whose pricing function returns
    everywhere in the band: the failure to converge, which carries a
    volatility of the band, the residual of the price there, not below the
    precision, and the precision. *)
Definition search_failure (val_fn : pricer) (option_type : string)
    (fs x t r b cp precision : R) (e : exn) : Prop :=
  match e with
  | ZeroDivisionError => False
  | ValueError => False
  | GBS_CalculationError v d pr =>
      pr = precision /\ in_band v /\ precision <= d /\
      exists p, outcome (val_fn option_type fs x t r b v) = inr p /\
                d = Rabs (cp - value_of p)
  end.

Section OutcomeVocabulary.

Variable val_fn : pricer.
Variable option_type : string.
Variables fs x t r b cp : R.

(** The states of the two loops when the pricing function returns
    everywhere in the band: the state of the bracketing search holds the
    price at [v_mid] and its residual; the state of the Newton-Raphson
    search holds the price at its volatility and a vega that is not 0. *)
Definition bisect_ok (st : bisect_state) : Prop :=
  in_band (v_low st) /\ in_band (v_high st) /\ in_band (v_mid st) /\
  priced val_fn option_type fs x t r b (v_mid st) (cp_mid st) /\ diff st = Rabs (cp - cp_mid st).

Definition newton_ok (st : newton_state) : Prop :=
  in_band (nr_v st) /\ priced val_fn option_type fs x t r b (nr_v st) (nr_value st) /\ nr_vega st <> 0.

End OutcomeVocabulary.

(** [same_run R m1 m2]: the two runs write the same log and end with the
    same exception, or with results related by [R]. *)
Definition same_run {A B : Type} (R : A -> B -> Prop) (m1 : M A) (m2 : M B) : Prop :=
  log_of m1 = log_of m2 /\
  match outcome m1, outcome m2 with
  | inl e1, inl e2 => e1 = e2
  | inr a, inr b => R a b
  | _, _ => False
  end.

(** Two tuples with the same vega whose values differ by [F]. *)
Definition shifted (F : R) (p1 p2 : pricing) : Prop :=
  value_of p2 = value_of p1 - F /\ vega_of p2 = vega_of p1.

Definition newton_shifted (F : R) (s1 s2 : newton_state) : Prop :=
  nr_v s2 = nr_v s1 /\ nr_value s2 = nr_value s1 - F /\
  nr_vega s2 = nr_vega s1 /\ nr_min_diff s2 = nr_min_diff s1.

Definition bisect_shifted (F : R) (s1 s2 : bisect_state) : Prop :=
  v_low s2 = v_low s1 /\ v_high s2 = v_high s1 /\ v_mid s2 = v_mid s1 /\
  cp_mid s2 = cp_mid s1 - F /\ diff s2 = diff s1.

(** * Properties *)

(** ** The series of the distribution function *)

Lemma cdf_series_spec y : Pser cdf_coeff y (cdf_series y).
Proof. unfold cdf_series. destruct (exist_cdf_series y); assumption. Qed.

Lemma cdf_term_pos n : 0 < cdf_term n.
Proof. apply Rinv_0_lt_compat, cdf_den_pos. Qed.

Lemma cdf_term_succ n :
  cdf_term (S n) = cdf_term n * (INR (2 * n + 1) / (2 * INR (S n) * INR (2 * S n + 1))).
Proof.
  unfold cdf_term.
  assert (H1 : INR (fact n) <> 0) by apply INR_fact_neq_0.
  assert (H2 : (2:R) ^ n <> 0) by (apply pow_nonzero; lra).
  assert (H3 : INR (2 * n + 1) <> 0) by (apply not_0_INR; lia).
  assert (H4 : INR (2 * S n + 1) <> 0) by (apply not_0_INR; lia).
  assert (H5 : INR (S n) <> 0) by (apply not_0_INR; lia).
  rewrite fact_simpl, mult_INR. simpl pow.
  field. repeat split; assumption.
Qed.

Lemma cdf_term_le n : cdf_term n <= / INR (S n).
Proof.
  unfold cdf_term. apply Rinv_le_contravar; [apply lt_0_INR; lia|].
  assert (1 <= INR (fact n)).
  { change 1 with (INR 1). apply le_INR. pose proof (fact_neq_0 n); lia. }
  assert (1 <= 2 ^ n) by (apply pow_R1_Rle; lra).
  assert (INR (S n) <= INR (2 * n + 1)) by (apply le_INR; lia).
  assert (0 < INR (S n)) by (apply lt_0_INR; lia).
  assert (1 <= INR (fact n) * 2 ^ n) by nra.
  generalize dependent (INR (fact n) * 2 ^ n). intros; nra.
Qed.

Lemma cdf_alt_decreasing y : 0 <= y <= 1 -> Un_decreasing (cdf_alt y).
Proof.
  intros Hy n. unfold cdf_alt. rewrite cdf_term_succ. simpl pow.
  pose proof (cdf_term_pos n) as Ht.
  assert (Hp : 0 <= y ^ n) by (apply pow_le; lra).
  assert (P1 : 0 < INR (S n)) by (apply lt_0_INR; lia).
  assert (P2 : 0 < INR (2 * S n + 1)) by (apply lt_0_INR; lia).
  assert (P3 : 0 < INR (2 * n + 1)) by (apply lt_0_INR; lia).
  assert (P4 : INR (2 * n + 1) <= INR (2 * S n + 1)) by (apply le_INR; lia).
  assert (P5 : 1 <= INR (S n)) by (change 1 with (INR 1); apply le_INR; lia).
  assert (Hq : 0 <= INR (2 * n + 1) / (2 * INR (S n) * INR (2 * S n + 1)) <= 1).
  { split.
    - apply Rmult_le_pos; [lra|]. left. apply Rinv_0_lt_compat. nra.
    - apply Rmult_le_reg_r with (2 * INR (S n) * INR (2 * S n + 1)); [nra|].
      unfold Rdiv. rewrite Rmult_assoc, Rinv_l by nra. nra. }
  set (q := INR (2 * n + 1) / (2 * INR (S n) * INR (2 * S n + 1))) in *.
  assert (0 <= cdf_term n * y ^ n) by (apply Rmult_le_pos; lra).
  replace (cdf_term n * q * (y * y ^ n)) with ((cdf_term n * y ^ n) * (q * y)) by ring.
  assert (Hqy : 0 <= q * y <= 1) by nra.
  assert (HA : 0 <= cdf_term n * y ^ n) by assumption.
  revert HA Hqy. generalize (q * y), (cdf_term n * y ^ n).
  intros B A HA HB. nra.
Qed.

Lemma cdf_alt_cv_0 y : 0 <= y <= 1 -> Un_cv (cdf_alt y) 0.
Proof.
  intros Hy eps Heps.
  destruct (archimed_cor1 eps Heps) as [N [HN HNpos]].
  exists N. intros n Hn. unfold Rdist, cdf_alt. rewrite Rminus_0_r.
  pose proof (cdf_term_pos n) as Ht. pose proof (cdf_term_le n) as Hle.
  assert (Hp : 0 <= y ^ n <= 1).
  { split; [apply pow_le; lra|]. rewrite <- (pow1 n). apply pow_incr; lra. }
  rewrite Rabs_right by (apply Rle_ge, Rmult_le_pos; lra).
  assert (/ INR (S n) < / INR N).
  { apply Rinv_lt_contravar.
    - apply Rmult_lt_0_compat; apply lt_0_INR; lia.
    - apply lt_INR; lia. }
  nra.
Qed.

Lemma cdf_alt_sum y :
  Un_cv (fun N => sum_f_R0 (tg_alt (cdf_alt y)) N) (cdf_series y).
Proof.
  pose proof (cdf_series_spec y) as H. unfold Pser, infinite_sum in H.
  intros eps Heps. destruct (H eps Heps) as [N HN]. exists N. intros n Hn.
  specialize (HN n Hn).
  replace (sum_f_R0 (tg_alt (cdf_alt y)) n)
    with (sum_f_R0 (fun n0 => cdf_coeff n0 * y ^ n0) n); [exact HN|].
  apply sum_eq. intros i _. unfold tg_alt, cdf_alt, cdf_coeff, cdf_term. 
  unfold Rdiv. ring.
Qed.

Lemma cdf_series_bounds y : 0 <= y <= 1 ->
  1 - y / 6 <= cdf_series y <= 1 - y / 6 + y * y / 40.
Proof.
  intros Hy.
  pose proof (alternated_series_ineq (cdf_alt y) (cdf_series y) 0
                (cdf_alt_decreasing y Hy) (cdf_alt_cv_0 y Hy) (cdf_alt_sum y)) as [H0 _].
  pose proof (alternated_series_ineq (cdf_alt y) (cdf_series y) 1
                (cdf_alt_decreasing y Hy) (cdf_alt_cv_0 y Hy) (cdf_alt_sum y)) as [_ H1].
  simpl in H0, H1. unfold tg_alt, cdf_alt, cdf_term in H0, H1. simpl in H0, H1.
  split; [eapply Rle_trans; [|exact H0]|eapply Rle_trans; [exact H1|]]; right; field.
Qed.


Lemma sqrt_2PI_pos : 0 < sqrt (2 * PI).
Proof. apply sqrt_lt_R0. pose proof PI_RGT_0. lra. Qed.

(** The distribution function is the antiderivative of the density that
    takes the value 1/2 at 0. *)

Lemma pdf_term_alt k y :
  pdf_term k y = cdf_coeff k * (INR (2 * k + 1) * y ^ (2 * k)).
Proof.
  unfold pdf_term, cdf_coeff.
  replace (- (y * y) / 2) with ((-1) * ((y * y) * / 2)) by (unfold Rdiv; ring).
  rewrite !Rpow_mult_distr, pow_inv.
  rewrite pow_mult. simpl (y ^ 2). rewrite Rmult_1_r, Rpow_mult_distr.
  assert (H1 : INR (fact k) <> 0) by apply INR_fact_neq_0.
  assert (H2 : (2:R) ^ k <> 0) by (apply pow_nonzero; lra).
  assert (H3 : INR (2 * k + 1) <> 0) by (apply not_0_INR; lia).
  generalize dependent (INR (fact k)). generalize dependent (INR (2 * k + 1)).
  generalize dependent ((2:R) ^ k). generalize ((-1) ^ k) (y ^ k).
  intros. field. repeat split; assumption.
Qed.

Lemma cdf_monomial_deriv k y :
  derivable_pt_lim (fun z => cdf_coeff k * z ^ (2 * k + 1)) y (pdf_term k y).
Proof.
  rewrite pdf_term_alt.
  replace (2 * k)%nat with (pred (2 * k + 1)) at 2 by lia.
  apply (derivable_pt_lim_scal (fun z => z ^ (2 * k + 1)) (cdf_coeff k) y).
  apply derivable_pt_lim_pow.
Qed.

Lemma cdf_poly_deriv n y :
  derivable_pt_lim (cdf_poly n) y (SP pdf_term n y).
Proof.
  induction n as [|n IH].
  - unfold cdf_poly, SP. simpl sum_f_R0. apply cdf_monomial_deriv.
  - unfold cdf_poly, SP in *. simpl sum_f_R0.
    apply (derivable_pt_lim_plus
             (fun z => sum_f_R0 (fun k => cdf_coeff k * z ^ (2 * k + 1)) n)
             (fun z => cdf_coeff (S n) * z ^ (2 * S n + 1))).
    + exact IH.
    + apply cdf_monomial_deriv.
Qed.

Lemma cdf_poly_scal n y :
  cdf_poly n y = y * sum_f_R0 (fun k => cdf_coeff k * (y * y) ^ k) n.
Proof.
  unfold cdf_poly. rewrite scal_sum. apply sum_eq. intros k _.
  rewrite pow_add, pow_1, pow_mult.
  replace (y ^ 2) with (y * y) by ring. ring.
Qed.

Lemma cdf_poly_cv y : Un_cv (fun n => cdf_poly n y) (y * cdf_series (y * y)).
Proof.
  assert (Hc : Un_cv (fun _ : nat => y) y).
  { intros eps Heps. exists 0%nat. intros n _. unfold Rdist.
    rewrite Rminus_diag, Rabs_R0. assumption. }
  pose proof (cdf_series_spec (y * y)) as Hs. unfold Pser, infinite_sum in Hs.
  pose proof (CV_mult _ _ _ _ Hc Hs) as H.
  intros eps Heps. destruct (H eps Heps) as [N HN]. exists N. intros n Hn.
  rewrite cdf_poly_scal. apply HN. assumption.
Qed.

Lemma pdf_term_cv y : Un_cv (fun N => SP pdf_term N y) (exp (- (y * y) / 2)).
Proof.
  pose proof (proj2_sig (exist_exp (- (y * y) / 2))) as H.
  unfold exp_in, infinite_sum in H.
  intros eps Heps. destruct (H eps Heps) as [N HN]. exists N. intros n Hn.
  apply HN. assumption.
Qed.

Lemma pdf_cv (y : R) : { l : R | Un_cv (fun N => SP pdf_term N y) l }.
Proof. exists (exp (- (y * y) / 2)). apply pdf_term_cv. Defined.

Lemma pdf_term_CVN (r : posreal) : CVN_r pdf_term r.
Proof.
  exists (fun k => / INR (fact k) * (r * r / 2) ^ k).
  exists (exp (r * r / 2)). split.
  - pose proof (proj2_sig (exist_exp (r * r / 2))) as H.
    unfold exp_in, infinite_sum in H.
    intros eps Heps. destruct (H eps Heps) as [N HN]. exists N. intros n Hn.
    replace (sum_f_R0 (fun k => Rabs (/ INR (fact k) * (r * r / 2) ^ k)) n)
      with (sum_f_R0 (fun k => / INR (fact k) * (r * r / 2) ^ k) n).
    + apply HN. assumption.
    + apply sum_eq. intros k _. symmetry. apply Rabs_right.
      apply Rle_ge. apply Rmult_le_pos.
      * left. apply Rinv_0_lt_compat. apply INR_fact_lt_0.
      * apply pow_le. pose proof (cond_pos r). nra.
  - intros n y Hy. unfold Boule in Hy. rewrite Rminus_0_r in Hy.
    unfold pdf_term. rewrite Rabs_mult.
    rewrite (Rabs_right (/ INR (fact n)))
      by (apply Rle_ge; left; apply Rinv_0_lt_compat, INR_fact_lt_0).
    apply Rmult_le_compat_l.
    + left. apply Rinv_0_lt_compat, INR_fact_lt_0.
    + rewrite <- RPow_abs. apply pow_incr. split; [apply Rabs_pos|].
      replace (- (y * y) / 2) with (- ((y * y) / 2)) by lra.
      rewrite Rabs_Ropp. rewrite Rabs_right by nra.
      pose proof (Rabs_pos y).
      assert (y * y = Rabs y * Rabs y).
      { unfold Rabs. destruct (Rcase_abs y); ring. }
      nra.
Qed.

Lemma cdf_series_deriv x :
  derivable_pt_lim (fun y => y * cdf_series (y * y)) x (exp (- (x * x) / 2)).
Proof.
  assert (Hr : 0 < Rabs x + 1) by (pose proof (Rabs_pos x); lra).
  set (r := mkposreal (Rabs x + 1) Hr).
  apply (derivable_pt_lim_CVU cdf_poly (fun n => SP pdf_term n)
           (fun y => y * cdf_series (y * y)) (fun y => exp (- (y * y) / 2)) x 0 r).
  - unfold Boule. simpl. rewrite Rminus_0_r. lra.
  - intros y n _. apply cdf_poly_deriv.
  - intros y _. apply cdf_poly_cv.
  - exact (CVN_CVU pdf_term pdf_cv r (pdf_term_CVN r)).
  - intros y _. apply derivable_continuous_pt. reg.
Qed.

Lemma norm_cdf_deriv x : derivable_pt_lim norm_cdf x (norm_pdf x).
Proof.
  unfold norm_pdf.
  pose proof sqrt_2PI_pos as Hs.
  replace (exp (- (x * x) / 2) / sqrt (2 * PI))
    with (0 + / sqrt (2 * PI) * exp (- (x * x) / 2)) by (field; lra).
  apply derivable_pt_lim_ext
    with (f := plus_fct (fct_cte (1 / 2))
                 (mult_real_fct (/ sqrt (2 * PI)) (fun y => y * cdf_series (y * y)))).
  - intros z. unfold norm_cdf, plus_fct, fct_cte, mult_real_fct. field. lra.
  - apply derivable_pt_lim_plus.
    + apply derivable_pt_lim_const.
    + apply derivable_pt_lim_scal. apply cdf_series_deriv.
Qed.

Lemma norm_cdf_0 : norm_cdf 0 = 1 / 2.
Proof. unfold norm_cdf. unfold Rdiv. ring. Qed.

(** ** The monad and the comparisons *)

Lemma Rleb_true a b : a <= b -> Rleb a b = true.
Proof. intros H. unfold Rleb. destruct (Rle_dec a b); [reflexivity|contradiction]. Qed.

Lemma Rleb_false a b : b < a -> Rleb a b = false.
Proof. intros H. unfold Rleb. destruct (Rle_dec a b); [lra|reflexivity]. Qed.

Lemma Rltb_true a b : a < b -> Rltb a b = true.
Proof. intros H. unfold Rltb. destruct (Rlt_dec a b); [reflexivity|contradiction]. Qed.

Lemma Rltb_false a b : b <= a -> Rltb a b = false.
Proof. intros H. unfold Rltb. destruct (Rlt_dec a b); [lra|reflexivity]. Qed.

Lemma Reqb_true a b : a = b -> Reqb a b = true.
Proof. intros H. unfold Reqb. destruct (Req_dec_T a b); [reflexivity|contradiction]. Qed.

Lemma Reqb_false a b : a <> b -> Reqb a b = false.
Proof. intros H. unfold Reqb. destruct (Req_dec_T a b); [contradiction|reflexivity]. Qed.

Lemma Rleb_spec a b : Rleb a b = true <-> a <= b.
Proof.
  split; [|apply Rleb_true].
  unfold Rleb. destruct (Rle_dec a b); [trivial|discriminate].
Qed.

Lemma Rltb_spec a b : Rltb a b = true <-> a < b.
Proof.
  split; [|apply Rltb_true].
  unfold Rltb. destruct (Rlt_dec a b); [trivial|discriminate].
Qed.

Lemma Rleb_nspec a b : Rleb a b = false <-> b < a.
Proof.
  split; [|apply Rleb_false].
  unfold Rleb. destruct (Rle_dec a b); [discriminate|lra].
Qed.

Lemma Rltb_nspec a b : Rltb a b = false <-> b <= a.
Proof.
  split; [|apply Rltb_false].
  unfold Rltb. destruct (Rlt_dec a b); [discriminate|lra].
Qed.

Lemma bind_ret_l {A B : Type} (a : A) (f : A -> M B) : bind (ret a) f = f a.
Proof. unfold bind, ret. simpl. destruct (f a); reflexivity. Qed.

Lemma bind_raise {A B : Type} (e : exn) (f : A -> M B) : bind (raise e) f = raise e.
Proof. reflexivity. Qed.

Lemma bind_inr {A B : Type} (l : list event) (a : A) (f : A -> M B) :
  bind (l, inr a) f = (l ++ log_of (f a), outcome (f a)).
Proof. reflexivity. Qed.

Lemma bind_inl {A B : Type} (l : list event) (e : exn) (f : A -> M B) :
  bind (l, inl e) f = (l, inl e).
Proof. reflexivity. Qed.

Lemma outcome_bind {A B : Type} (m : M A) (f : A -> M B) :
  outcome (bind m f) =
  match outcome m with inl e => inl e | inr a => outcome (f a) end.
Proof. destruct m as [l [e|a]]; reflexivity. Qed.

Lemma log_bind {A B : Type} (m : M A) (f : A -> M B) :
  log_of (bind m f) =
  match outcome m with
  | inl _ => log_of m
  | inr a => log_of m ++ log_of (f a)
  end.
Proof. destruct m as [l [e|a]]; reflexivity. Qed.

Lemma M_eta {A : Type} (m : M A) : m = (log_of m, outcome m).
Proof. destruct m; reflexivity. Qed.

Lemma py_div_ok a b : b <> 0 -> py_div a b = ret (a / b).
Proof. intros H. unfold py_div. rewrite Reqb_false by assumption. reflexivity. Qed.

Lemma py_div_zero a : py_div a 0 = raise ZeroDivisionError.
Proof. unfold py_div. rewrite Reqb_true by reflexivity. reflexivity. Qed.

Lemma math_sqrt_ok a : 0 <= a -> math_sqrt a = ret (sqrt a).
Proof. intros H. unfold math_sqrt. rewrite Rltb_false by assumption. reflexivity. Qed.

Lemma math_sqrt_bad a : a < 0 -> math_sqrt a = raise ValueError.
Proof. intros H. unfold math_sqrt. rewrite Rltb_true by assumption. reflexivity. Qed.

Lemma math_log_bad a : a <= 0 -> math_log a = raise ValueError.
Proof. intros H. unfold math_log. rewrite Rleb_true by assumption. reflexivity. Qed.

Lemma math_log_ok a : 0 < a -> math_log a = ret (ln a).
Proof. intros H. unfold math_log. rewrite Rleb_false by assumption. reflexivity. Qed.

(** ** The input checks never raise *)

Lemma test_option_type_outcome ot : outcome (_test_option_type ot) = inr tt.
Proof. unfold _test_option_type. destruct (_ && _); reflexivity. Qed.

Lemma test_option_type_valid ot :
  ot = "c"%string \/ ot = "p"%string -> _test_option_type ot = ret tt.
Proof. intros [-> | ->]; reflexivity. Qed.

Lemma check_range_outcome lo hi a d : outcome (check_range lo hi a d) = inr tt.
Proof. unfold check_range. destruct (_ || _); reflexivity. Qed.

Lemma check_range_in lo hi a d : lo <= a <= hi -> check_range lo hi a d = ret tt.
Proof.
  intros [H1 H2]. unfold check_range.
  rewrite (Rltb_false a lo), (Rltb_false hi a) by assumption. reflexivity.
Qed.

Lemma gbs_test_inputs_outcome ot fs x t r b v :
  outcome (_gbs_test_inputs ot fs x t r b v) = inr tt.
Proof.
  unfold _gbs_test_inputs.
  rewrite outcome_bind, test_option_type_outcome.
  repeat (rewrite outcome_bind, check_range_outcome).
  apply check_range_outcome.
Qed.

Lemma gbs_test_inputs_quiet ot fs x t r b v :
  ot = "c"%string \/ ot = "p"%string -> within_limits fs x t r b v ->
  _gbs_test_inputs ot fs x t r b v = ret tt.
Proof.
  intros Hot (Hx & Hfs & Ht & Hb & Hr & Hv). unfold _gbs_test_inputs.
  rewrite test_option_type_valid by assumption.
  rewrite !check_range_in by assumption.
  reflexivity.
Qed.

(** ** The pricing function *)

Lemma within_limits_defined fs x t r b v :
  within_limits fs x t r b v -> gbs_defined fs x t v.
Proof.
  unfold within_limits, gbs_defined, MIN_X, MIN_FS, MIN_T, MIN_V.
  intros (Hx & Hfs & Ht & _ & _ & Hv).
  assert (0 < sqrt t) by (apply sqrt_lt_R0; lra).
  repeat split; try lra.
  - apply Rdiv_lt_0_compat; lra.
  - apply Rgt_not_eq. apply Rmult_lt_0_compat; lra.
Qed.

Lemma gbs_defined_facts fs x t v :
  gbs_defined fs x t v -> fs * v * sqrt t <> 0 /\ 2 * sqrt t <> 0.
Proof.
  intros (Ht & Hx & Hq & Hv).
  assert (fs <> 0).
  { intros ->. unfold Rdiv in Hq. rewrite Rmult_0_l in Hq. lra. }
  assert (sqrt t <> 0) by (intros E; rewrite E, Rmult_0_r in Hv; lra).
  split.
  - rewrite Rmult_assoc. apply Rmult_integral_contrapositive_currified; assumption.
  - lra.
Qed.

Ltac gbs_prefix Hd :=
  let Ht := fresh "Ht" in let Hx := fresh "Hx" in
  let Hq := fresh "Hq" in let Hv := fresh "Hv" in
  let Hg := fresh "Hg" in let Hs := fresh "Hs" in
  destruct (gbs_defined_facts _ _ _ _ Hd) as [Hg Hs];
  destruct Hd as (Ht & Hx & Hq & Hv);
  unfold _gbs;
  rewrite outcome_bind, gbs_test_inputs_outcome;
  rewrite (math_sqrt_ok _ Ht), bind_ret_l;
  rewrite (py_div_ok _ _ Hx), bind_ret_l;
  rewrite (math_log_ok _ Hq), bind_ret_l;
  rewrite (py_div_ok _ _ Hv), bind_ret_l;
  cbv zeta.

Lemma gbs_call_outcome fs x t r b v :
  gbs_defined fs x t v ->
  let d1 := d1_of fs x t b v in
  let d2 := d2_of fs x t b v in
  outcome (_gbs "c" fs x t r b v) =
  inr (fs * exp ((b - r) * t) * norm_cdf d1 - x * exp (- r * t) * norm_cdf d2,
       exp ((b - r) * t) * norm_cdf d1,
       exp ((b - r) * t) * norm_pdf d1 / (fs * v * sqrt t),
       - (fs * v * exp ((b - r) * t) * norm_pdf d1) / (2 * sqrt t)
         - (b - r) * fs * exp ((b - r) * t) * norm_cdf d1
         - r * x * exp (- r * t) * norm_cdf d2,
       exp ((b - r) * t) * fs * sqrt t * norm_pdf d1,
       x * t * exp (- r * t) * norm_cdf d2).
Proof.
  intros Hd d1 d2. gbs_prefix Hd.
  change (String.eqb "c" "c") with true. cbv iota.
  rewrite (py_div_ok _ _ Hg), bind_ret_l.
  rewrite (py_div_ok _ _ Hs), bind_ret_l.
  reflexivity.
Qed.

Lemma gbs_put_outcome ot fs x t r b v :
  ot <> "c"%string -> gbs_defined fs x t v ->
  let d1 := d1_of fs x t b v in
  let d2 := d2_of fs x t b v in
  outcome (_gbs ot fs x t r b v) =
  inr (x * exp (- r * t) * norm_cdf (- d2) - fs * exp ((b - r) * t) * norm_cdf (- d1),
       - exp ((b - r) * t) * norm_cdf (- d1),
       exp ((b - r) * t) * norm_pdf d1 / (fs * v * sqrt t),
       - (fs * v * exp ((b - r) * t) * norm_pdf d1) / (2 * sqrt t)
         + (b - r) * fs * exp ((b - r) * t) * norm_cdf (- d1)
         + r * x * exp (- r * t) * norm_cdf (- d2),
       exp ((b - r) * t) * fs * sqrt t * norm_pdf d1,
       - x * t * exp (- r * t) * norm_cdf (- d2)).
Proof.
  intros Hot Hd d1 d2. gbs_prefix Hd.
  apply String.eqb_neq in Hot. rewrite Hot.
  rewrite (py_div_ok _ _ Hg), bind_ret_l.
  rewrite (py_div_ok _ _ Hs), bind_ret_l.
  reflexivity.
Qed.

Lemma gbs_log_quiet ot fs x t r b v :
  ot = "c"%string \/ ot = "p"%string -> within_limits fs x t r b v ->
  log_of (_gbs ot fs x t r b v) = [].
Proof.
  intros Hot Hw.
  destruct (gbs_defined_facts _ _ _ _ (within_limits_defined _ _ _ _ _ _ Hw)) as [Hg Hs].
  destruct (within_limits_defined _ _ _ _ _ _ Hw) as (Ht & Hx & Hq & Hv).
  unfold _gbs. rewrite (gbs_test_inputs_quiet _ _ _ _ _ _ _ Hot Hw), bind_ret_l.
  rewrite (math_sqrt_ok _ Ht), bind_ret_l.
  rewrite (py_div_ok _ _ Hx), bind_ret_l.
  rewrite (math_log_ok _ Hq), bind_ret_l.
  rewrite (py_div_ok _ _ Hv), bind_ret_l.
  cbv zeta.
  destruct (String.eqb ot "c");
    rewrite (py_div_ok _ _ Hg), bind_ret_l, (py_div_ok _ _ Hs), bind_ret_l;
    reflexivity.
Qed.

Lemma norm_cdf_opp x : norm_cdf (- x) = 1 - norm_cdf x.
Proof.
  unfold norm_cdf. replace (- x * - x) with (x * x) by ring.
  unfold Rdiv. lra.
Qed.

(** C5.  For a call with inputs inside the Domain Limits (so that t > 0 and
    volatility > 0), [_gbs] prints nothing, raises nothing and returns a
    tuple whose first component is
    spot e^((carry-r)t) Phi(d1) - strike e^(-rt) Phi(d2) and whose fifth
    component is e^((carry-r)t) spot sqrt(t) phi(d1), with
    d1 = (ln(spot/strike) + (carry + volatility^2/2) t)/(volatility sqrt t)
    and d2 = d1 - volatility sqrt t. *)
Theorem gbs_call_value_vega (fs x t r b v : R) :
  within_limits fs x t r b v -> 0 < t -> 0 < v ->
  let d1 := (ln (fs / x) + (b + v * v / 2) * t) / (v * sqrt t) in
  let d2 := d1 - v * sqrt t in
  exists delta gamma theta rho : R,
    _gbs "c" fs x t r b v =
    ret (fs * exp ((b - r) * t) * norm_cdf d1 - x * exp (- r * t) * norm_cdf d2,
         delta, gamma, theta,
         exp ((b - r) * t) * fs * sqrt t * norm_pdf d1, rho).
Proof.
  intros Hw _ _ d1 d2.
  pose proof (gbs_call_outcome fs x t r b v (within_limits_defined _ _ _ _ _ _ Hw)) as Ho.
  pose proof (gbs_log_quiet "c" fs x t r b v (or_introl eq_refl) Hw) as Hl.
  cbv zeta in Ho. fold (d1_of fs x t b v) in d1. fold d1 in Ho.
  unfold d2_of in Ho. fold (d1_of fs x t b v) in d2. fold d1 in Ho. fold d2 in Ho.
  do 4 eexists. rewrite (M_eta (_gbs _ _ _ _ _ _ _)), Hl, Ho. reflexivity.
Qed.

Lemma gbs_call_value_vega_witness :
  exists delta gamma theta rho : R,
    _gbs "c" 100 100 (1 / 2) (3 / 100) (2 / 100) (1 / 5) =
    ret (100 * exp ((2 / 100 - 3 / 100) * (1 / 2))
           * norm_cdf ((ln (100 / 100) + (2 / 100 + 1 / 5 * (1 / 5) / 2) * (1 / 2))
                       / (1 / 5 * sqrt (1 / 2)))
         - 100 * exp (- (3 / 100) * (1 / 2))
           * norm_cdf ((ln (100 / 100) + (2 / 100 + 1 / 5 * (1 / 5) / 2) * (1 / 2))
                       / (1 / 5 * sqrt (1 / 2)) - 1 / 5 * sqrt (1 / 2)),
         delta, gamma, theta,
         exp ((2 / 100 - 3 / 100) * (1 / 2)) * 100 * sqrt (1 / 2)
           * norm_pdf ((ln (100 / 100) + (2 / 100 + 1 / 5 * (1 / 5) / 2) * (1 / 2))
                       / (1 / 5 * sqrt (1 / 2))),
         rho).
Proof.
  apply (gbs_call_value_vega 100 100 (1 / 2) (3 / 100) (2 / 100) (1 / 5)).
  - unfold within_limits, MIN_X, MAX_X, MIN_FS, MAX_FS, MAX32, MIN_T, MAX_T,
      MIN_b, MAX_b, MIN_r, MAX_r, MIN_V, MAX_V. lra.
  - lra.
  - lra.
Defined.

(** C7.  Put-call parity: for inputs inside the Domain Limits, the call and
    the put both return, and the value of the call minus the value of the
    put is spot e^((carry-r)t) - strike e^(-rt). *)
Theorem put_call_parity (fs x t r b v : R) :
  within_limits fs x t r b v ->
  exists c p : pricing,
    _gbs "c" fs x t r b v = ret c /\
    _gbs "p" fs x t r b v = ret p /\
    value_of c - value_of p = fs * exp ((b - r) * t) - x * exp (- r * t).
Proof.
  intros Hw.
  pose proof (within_limits_defined _ _ _ _ _ _ Hw) as Hd.
  pose proof (gbs_call_outcome fs x t r b v Hd) as Hc.
  pose proof (gbs_put_outcome "p" fs x t r b v ltac:(discriminate) Hd) as Hp.
  pose proof (gbs_log_quiet "c" fs x t r b v (or_introl eq_refl) Hw) as Hlc.
  pose proof (gbs_log_quiet "p" fs x t r b v (or_intror eq_refl) Hw) as Hlp.
  cbv zeta in Hc, Hp.
  eexists. eexists. split; [|split].
  - rewrite (M_eta (_gbs "c" _ _ _ _ _ _)), Hlc, Hc. reflexivity.
  - rewrite (M_eta (_gbs "p" _ _ _ _ _ _)), Hlp, Hp. reflexivity.
  - unfold value_of. rewrite !norm_cdf_opp. ring.
Qed.

Lemma put_call_parity_witness :
  exists c p : pricing,
    _gbs "c" (156 / 100) (160 / 100) (1 / 2) (6 / 100) (-2 / 100) (12 / 100) = ret c /\
    _gbs "p" (156 / 100) (160 / 100) (1 / 2) (6 / 100) (-2 / 100) (12 / 100) = ret p /\
    value_of c - value_of p =
    156 / 100 * exp ((-2 / 100 - 6 / 100) * (1 / 2))
    - 160 / 100 * exp (- (6 / 100) * (1 / 2)).
Proof.
  apply (put_call_parity (156 / 100) (160 / 100) (1 / 2) (6 / 100) (-2 / 100) (12 / 100)).
  unfold within_limits, MIN_X, MAX_X, MIN_FS, MAX_FS, MAX32, MIN_T, MAX_T,
    MIN_b, MAX_b, MIN_r, MAX_r, MIN_V, MAX_V. lra.
Defined.

(** C10.  On every parameter tuple on which the formula is defined, the
    call and the put both return, and both carry the same gamma,
    e^((carry-r)t) phi(d1)/(spot volatility sqrt t), and the same vega,
    e^((carry-r)t) spot sqrt(t) phi(d1). *)
Theorem gbs_gamma_vega_shared (fs x t r b v : R) :
  gbs_defined fs x t v ->
  let d1 := (ln (fs / x) + (b + v * v / 2) * t) / (v * sqrt t) in
  exists c p : pricing,
    outcome (_gbs "c" fs x t r b v) = inr c /\
    outcome (_gbs "p" fs x t r b v) = inr p /\
    gamma_of c = exp ((b - r) * t) * norm_pdf d1 / (fs * v * sqrt t) /\
    gamma_of p = gamma_of c /\
    vega_of c = exp ((b - r) * t) * fs * sqrt t * norm_pdf d1 /\
    vega_of p = vega_of c.
Proof.
  intros Hd d1.
  pose proof (gbs_call_outcome fs x t r b v Hd) as Hc.
  pose proof (gbs_put_outcome "p" fs x t r b v ltac:(discriminate) Hd) as Hp.
  cbv zeta in Hc, Hp.
  eexists. eexists. split; [exact Hc|]. split; [exact Hp|].
  repeat split; reflexivity.
Qed.

Lemma gbs_gamma_vega_shared_witness :
  exists c p : pricing,
    outcome (_gbs "c" 20 18 1 (5 / 100) (5 / 100) (15 / 100)) = inr c /\
    outcome (_gbs "p" 20 18 1 (5 / 100) (5 / 100) (15 / 100)) = inr p /\
    gamma_of c =
      exp ((5 / 100 - 5 / 100) * 1)
      * norm_pdf ((ln (20 / 18) + (5 / 100 + 15 / 100 * (15 / 100) / 2) * 1)
                  / (15 / 100 * sqrt 1))
      / (20 * (15 / 100) * sqrt 1) /\
    gamma_of p = gamma_of c /\
    vega_of c =
      exp ((5 / 100 - 5 / 100) * 1) * 20 * sqrt 1
      * norm_pdf ((ln (20 / 18) + (5 / 100 + 15 / 100 * (15 / 100) / 2) * 1)
                  / (15 / 100 * sqrt 1)) /\
    vega_of p = vega_of c.
Proof.
  apply (gbs_gamma_vega_shared 20 18 1 (5 / 100) (5 / 100) (15 / 100)).
  unfold gbs_defined. rewrite sqrt_1. lra.
Defined.

Lemma Reqb_spec a b : Reqb a b = true <-> a = b.
Proof.
  split; [|apply Reqb_true].
  unfold Reqb. destruct (Req_dec_T a b); [trivial|discriminate].
Qed.

Lemma Reqb_nspec a b : Reqb a b = false <-> a <> b.
Proof.
  split; [|apply Reqb_false].
  unfold Reqb. destruct (Req_dec_T a b); [discriminate|trivial].
Qed.

Lemma bind_print {B : Type} (d : diagnostic) (f : unit -> M B) :
  bind (print d) f = (Print d :: log_of (f tt), outcome (f tt)).
Proof. reflexivity. Qed.

Lemma check_range_out lo hi a d :
  a < lo \/ hi < a -> check_range lo hi a d = print d.
Proof.
  intros H. unfold check_range.
  destruct H as [H|H].
  - rewrite (Rltb_true a lo) by assumption. reflexivity.
  - rewrite (Rltb_true hi a) by assumption. rewrite orb_true_r. reflexivity.
Qed.

(** When the formula is defined, the log of [_gbs] is the log of its input
    check: the computation itself prints nothing. *)
Lemma gbs_log_defined ot fs x t r b v :
  gbs_defined fs x t v ->
  log_of (_gbs ot fs x t r b v) = log_of (_gbs_test_inputs ot fs x t r b v).
Proof.
  intros Hd.
  destruct (gbs_defined_facts _ _ _ _ Hd) as [Hg Hs].
  destruct Hd as (Ht & Hx & Hq & Hv).
  unfold _gbs. rewrite log_bind, gbs_test_inputs_outcome.
  rewrite (math_sqrt_ok _ Ht), bind_ret_l.
  rewrite (py_div_ok _ _ Hx), bind_ret_l.
  rewrite (math_log_ok _ Hq), bind_ret_l.
  rewrite (py_div_ok _ _ Hv), bind_ret_l.
  cbv zeta.
  destruct (String.eqb ot "c");
    rewrite (py_div_ok _ _ Hg), bind_ret_l, (py_div_ok _ _ Hs), bind_ret_l;
    apply app_nil_r.
Qed.

Lemma gbs_defined_returns ot fs x t r b v :
  gbs_defined fs x t v -> exists p, outcome (_gbs ot fs x t r b v) = inr p.
Proof.
  intros Hd. destruct (string_dec ot "c") as [-> | Hot].
  - eexists. apply (gbs_call_outcome fs x t r b v Hd).
  - eexists. apply (gbs_put_outcome ot fs x t r b v Hot Hd).
Qed.

(** Outside [gbs_defined] the arithmetic of the formula raises. *)
Lemma gbs_undefined_raises ot fs x t r b v :
  ~ gbs_defined fs x t v ->
  outcome (_gbs ot fs x t r b v) = inl ZeroDivisionError \/
  outcome (_gbs ot fs x t r b v) = inl ValueError.
Proof.
  intros Hn. unfold _gbs.
  rewrite outcome_bind, gbs_test_inputs_outcome.
  destruct (Rlt_dec t 0) as [Ht|Ht].
  { rewrite math_sqrt_bad by assumption. right; reflexivity. }
  rewrite math_sqrt_ok, bind_ret_l by lra.
  destruct (Req_dec_T x 0) as [->|Hx].
  { rewrite py_div_zero. left; reflexivity. }
  rewrite py_div_ok, bind_ret_l by assumption.
  destruct (Rle_dec (fs / x) 0) as [Hq|Hq].
  { rewrite math_log_bad by assumption. right; reflexivity. }
  rewrite math_log_ok, bind_ret_l by lra.
  destruct (Req_dec_T (v * sqrt t) 0) as [Hv|Hv].
  { rewrite Hv, py_div_zero. left; reflexivity. }
  exfalso. apply Hn. repeat split; try assumption; lra.
Qed.

Lemma gbs_computable_defined fs x t r b v :
  gbs_computable fs x t r b v -> gbs_defined fs x t v.
Proof.
  intros (Hfs & Hx & Ht & Hv & _).
  assert (0 < sqrt t) by (apply sqrt_lt_R0; lra).
  unfold gbs_defined. repeat split; try lra.
  - apply Rdiv_lt_0_compat; lra.
  - apply Rgt_not_eq. apply Rmult_lt_0_compat; lra.
Qed.




(** ** The Newton-Raphson loop *)

Lemma newton_guard_spec cp precision st :
  newton_guard cp precision st = true <->
  precision <= Rabs (cp - nr_value st) <= nr_min_diff st.
Proof.
  unfold newton_guard. rewrite andb_true_iff, !Rleb_spec. tauto.
Qed.

Lemma newton_loop_stop val_fn ot fs x t r b cp precision n st :
  newton_guard cp precision st = false ->
  newton_loop val_fn ot fs x t r b cp precision n st = ret st.
Proof. intros H. destruct n; simpl; [|rewrite H]; reflexivity. Qed.

Lemma newton_finish_fallback val_fn ot fs x t r b cp precision max_steps st :
  precision <= Rabs (cp - nr_value st) ->
  newton_finish val_fn ot fs x t r b cp precision max_steps st =
  _rech_dichotomique_vol_implicite val_fn ot fs x t r b cp precision max_steps.
Proof. intros H. unfold newton_finish. rewrite Rltb_false by assumption. reflexivity. Qed.

Lemma newton_finish_converged val_fn ot fs x t r b cp precision max_steps st :
  Rabs (cp - nr_value st) < precision ->
  newton_finish val_fn ot fs x t r b cp precision max_steps st = ret (nr_v st).
Proof. intros H. unfold newton_finish. rewrite Rltb_true by assumption. reflexivity. Qed.

(** The state reached by a pass through the body that did not [break]
    carries the smaller of the new error and the old [min_diff]. *)
Lemma newton_body_continue val_fn ot fs x t r b cp st log st' :
  newton_body val_fn ot fs x t r b cp st = (log, inr (false, st')) ->
  nr_min_diff st' = Rmin (Rabs (cp - nr_value st')) (nr_min_diff st).
Proof.
  unfold newton_body. intros H.
  destruct (py_div (nr_value st - cp) (nr_vega st)) as [l1 [e|d]]; [discriminate|].
  rewrite bind_inr in H.
  destruct (Rltb MAX_V (nr_v st - d) || Rltb (nr_v st - d) MIN_V).
  - rewrite bind_print in H. simpl in H. inversion H.
  - destruct (call_val_fn val_fn ot fs x t r b (nr_v st - d)) as [l2 [e|p]];
      [discriminate|].
    rewrite bind_inr in H. simpl in H. inversion H. reflexivity.
Qed.

(** The loop goes through the passes of [newton_passes] and carries on from
    the state they reach. *)
Lemma newton_passes_loop val_fn ot fs x t r b cp precision st0 errs log st :
  newton_passes val_fn ot fs x t r b cp precision st0 errs log st ->
  forall n,
    newton_loop val_fn ot fs x t r b cp precision (length errs + n) st0 =
    (log ++ log_of (newton_loop val_fn ot fs x t r b cp precision n st),
     outcome (newton_loop val_fn ot fs x t r b cp precision n st)).
Proof.
  induction 1 as [|errs log st log' st' Hp IH Hg Hb]; intros n.
  - cbn [length Nat.add app]. apply M_eta.
  - cbn [length]. replace (S (length errs) + n)%nat with (length errs + S n)%nat by lia.
    rewrite IH. cbn [newton_loop]. rewrite Hg, Hb, bind_inr. cbn [fst snd].
    unfold log_of, outcome; cbn [fst snd]. rewrite app_assoc. reflexivity.
Qed.

(** Along the passes [min_diff] is the smallest error seen, and no error
    before the last state was below the precision. *)
Lemma newton_passes_min_diff val_fn ot fs x t r b cp precision st0 errs log st :
  nr_min_diff st0 = Rabs (cp - nr_value st0) ->
  newton_passes val_fn ot fs x t r b cp precision st0 errs log st ->
  nr_min_diff st = smallest (Rabs (cp - nr_value st)) errs /\
  Forall (fun e => precision <= e) errs.
Proof.
  intros H0. induction 1 as [|errs log st log' st' Hp [IHm IHf] Hg Hb].
  - split; [exact H0|constructor].
  - split.
    + rewrite (newton_body_continue _ _ _ _ _ _ _ _ _ _ _ Hb), IHm. reflexivity.
    + constructor; [|exact IHf]. apply newton_guard_spec in Hg. lra.
Qed.

Lemma smallest_ge precision e errs :
  Forall (fun e' => precision <= e') (e :: errs) -> precision <= smallest e errs.
Proof.
  revert e. induction errs as [|e' errs IH]; intros e H; inversion H; subst.
  - assumption.
  - cbn [smallest]. apply Rmin_glb; [assumption|]. apply IH. assumption.
Qed.


Lemma Rabs_eval_pos a : 0 <= a -> Rabs a = a.
Proof. intros H. apply Rabs_right. lra. Qed.

Lemma Rabs_eval_neg a : a <= 0 -> Rabs a = - a.
Proof. intros H. apply Rabs_left1. assumption. Qed.




(** ** The bracketing search *)

Lemma bisect_loop_stop val_fn ot fs x t r b cp precision n st :
  diff st <= precision ->
  bisect_loop val_fn ot fs x t r b cp precision n st = ret st.
Proof.
  intros H. destruct n; simpl; [reflexivity|].
  rewrite Rltb_false by assumption. reflexivity.
Qed.

Lemma bisect_finish_converged cp precision st :
  Rabs (cp - cp_mid st) < precision ->
  bisect_finish cp precision st = ret (v_mid st).
Proof. intros H. unfold bisect_finish. rewrite Rltb_true by assumption. reflexivity. Qed.

Lemma bisect_finish_raises cp precision st :
  precision <= Rabs (cp - cp_mid st) ->
  bisect_finish cp precision st =
  raise (GBS_CalculationError (v_mid st) (diff st) precision).
Proof. intros H. unfold bisect_finish. rewrite Rltb_false by assumption. reflexivity. Qed.

(** When the loop stands at a residual equal to the precision, it ends
    whatever the number of steps left, and the test after it raises. *)
Lemma bisect_boundary val_fn ot fs x t r b cp precision n st :
  diff st = Rabs (cp - cp_mid st) ->
  diff st = precision ->
  st' <- bisect_loop val_fn ot fs x t r b cp precision n st ;;
  bisect_finish cp precision st' =
  raise (GBS_CalculationError (v_mid st) precision precision).
Proof.
  intros Hd Hp. rewrite bisect_loop_stop, bind_ret_l by lra.
  rewrite bisect_finish_raises by lra. rewrite Hp. reflexivity.
Qed.

(** *** An at-the-money call with no rates: spot = strike = 1, t = 1/100 *)

Lemma sqrt_1_100 : sqrt (1 / 100) = 1 / 10.
Proof. apply sqrt_lem_1; lra. Qed.

Lemma sqrt_2PI_ge_2 : 2 <= sqrt (2 * PI).
Proof.
  apply Rle_trans with (sqrt (2 * 2)).
  - rewrite sqrt_square; lra.
  - apply sqrt_le_1_alt. pose proof PI2_1. lra.
Qed.

Lemma approx_atm cp :
  0 <= cp ->
  _vol_implicite_approx "c" 1 1 (1 / 100) 0 0 cp = ret (10 * sqrt (2 * PI) * cp).
Proof.
  intros Hcp. unfold _vol_implicite_approx.
  rewrite test_option_type_valid, bind_ret_l by (left; reflexivity).
  change (String.eqb "c" "c") with true. cbv zeta iota.
  replace ((0 - 0) * (1 / 100)) with 0 by lra.
  replace (- 0 * (1 / 100)) with 0 by lra.
  rewrite exp_0.
  pose proof sqrt_2PI_pos as Hs. pose proof PI_RGT_0 as Hpi.
  rewrite math_sqrt_ok, bind_ret_l by lra.
  rewrite py_div_ok, bind_ret_l by lra.
  replace ((cp - (1 * 1 - 1 * 1) / 2) ^ 2 + (1 * 1 - 1 * 1) ^ 2 / PI)
    with (cp ^ 2) by (field; lra).
  rewrite math_sqrt_ok, bind_ret_l by (apply pow2_ge_0).
  rewrite sqrt_pow2 by assumption.
  rewrite math_sqrt_ok, bind_ret_l by lra.
  rewrite sqrt_1_100.
  rewrite py_div_ok, bind_ret_l by lra.
  unfold ret. f_equal. f_equal. field.
Qed.

Lemma atm_within_limits v :
  MIN_V <= v <= MAX_V -> within_limits 1 1 (1 / 100) 0 0 v.
Proof.
  unfold within_limits, MIN_X, MAX_X, MIN_FS, MAX_FS, MAX32, MIN_T, MAX_T,
    MIN_b, MAX_b, MIN_r, MAX_r. lra.
Qed.

Lemma gbs_atm v :
  MIN_V <= v <= MAX_V ->
  exists p, _gbs "c" 1 1 (1 / 100) 0 0 v = ret p /\ value_of p = atm_price v.
Proof.
  intros Hv.
  pose proof (atm_within_limits v Hv) as Hw.
  pose proof (gbs_call_outcome 1 1 (1 / 100) 0 0 v (within_limits_defined _ _ _ _ _ _ Hw)) as Ho.
  pose proof (gbs_log_quiet "c" 1 1 (1 / 100) 0 0 v (or_introl eq_refl) Hw) as Hl.
  cbv zeta in Ho.
  eexists. split.
  - rewrite (M_eta (_gbs _ _ _ _ _ _ _)), Hl, Ho. reflexivity.
  - unfold value_of, d2_of, d1_of, atm_price.
    unfold MIN_V, MAX_V in Hv.
    replace (1 / 1) with 1 by lra. rewrite ln_1, sqrt_1_100.
    replace ((0 - 0) * (1 / 100)) with 0 by lra.
    replace (- 0 * (1 / 100)) with 0 by lra.
    rewrite exp_0.
    replace ((0 + (0 + v * v / 2) * (1 / 100)) / (v * (1 / 10))) with (v / 20)
      by (field; lra).
    replace (v / 20 - v * (1 / 10)) with (- (v / 20)) by lra.
    rewrite norm_cdf_opp. unfold norm_cdf.
    replace (v / 20 * (v / 20)) with (v * v / 400) by lra.
    pose proof sqrt_2PI_pos. field. lra.
Qed.

Lemma bind_call {B : Type} (val_fn : pricer) ot fs x t r b v p
    (f : pricing -> M B) :
  val_fn ot fs x t r b v = ret p ->
  bind (call_val_fn val_fn ot fs x t r b v) f = (Call v :: log_of (f p), outcome (f p)).
Proof. intros H. unfold call_val_fn, mark_call. rewrite H. reflexivity. Qed.

(** C3 at its boundary.  The caller asks for a precision equal to the
    residual of the first estimate: cp = 1 for the at-the-money call with
    spot = strike = 1, t = 1/100 and no rates, whose starting point is above
    MAX_V, so that the first estimate is the middle (MIN_V + MAX_V)/2 =
    201/400 of the band.  The loop ends at once, since diff <= precision,
    with all of its 100 steps left, and the search raises
    [GBS_CalculationError] with diff = precision instead of returning
    v_mid. *)
Theorem bisection_raises_at_boundary :
  exists p : pricing,
    _gbs "c" 1 1 (1 / 100) 0 0 (201 / 400) = ret p /\
    _rech_dichotomique_vol_implicite _gbs "c" 1 1 (1 / 100) 0 0 1
      (Rabs (1 - value_of p)) 100 =
    ([Call (201 / 400)],
     inl (GBS_CalculationError (201 / 400) (Rabs (1 - value_of p))
            (Rabs (1 - value_of p)))).
Proof.
  destruct (gbs_atm (201 / 400)) as [p [Hp _]]; [unfold MIN_V, MAX_V; lra|].
  exists p. split; [exact Hp|].
  unfold _rech_dichotomique_vol_implicite.
  rewrite approx_atm, bind_ret_l by lra.
  pose proof sqrt_2PI_ge_2 as Hs.
  rewrite (Rleb_true MAX_V) by (unfold MAX_V; lra).
  rewrite orb_true_r. cbv zeta iota.
  replace ((MIN_V + MAX_V) / 2) with (201 / 400) by (unfold MIN_V, MAX_V; lra).
  rewrite (bind_call _gbs _ _ _ _ _ _ _ p _ Hp).
  rewrite bisect_boundary by reflexivity.
  reflexivity.
Qed.

(** ** What the searches evaluate and what they return *)

Lemma calls_app l1 l2 : calls (l1 ++ l2) = calls l1 ++ calls l2.
Proof.
  induction l1 as [|[d|v] l1 IH]; simpl; [reflexivity|assumption|].
  rewrite IH. reflexivity.
Qed.

Lemma nocalls_bind {A B : Type} (m : M A) (f : A -> M B) :
  nocalls m -> (forall a, nocalls (f a)) -> nocalls (bind m f).
Proof.
  unfold nocalls. intros Hm Hf. destruct m as [l [e|a]]; simpl in *; [assumption|].
  rewrite calls_app, Hm. apply Hf.
Qed.

Lemma nocalls_ret {A : Type} (a : A) : nocalls (ret a).
Proof. reflexivity. Qed.

Lemma nocalls_print d : nocalls (print d).
Proof. reflexivity. Qed.

Lemma nocalls_py_div a b : nocalls (py_div a b).
Proof. unfold py_div. destruct (Reqb b 0); reflexivity. Qed.

Lemma nocalls_math_sqrt a : nocalls (math_sqrt a).
Proof. unfold math_sqrt. destruct (Rltb a 0); reflexivity. Qed.

Lemma nocalls_math_log a : nocalls (math_log a).
Proof. unfold math_log. destruct (Rleb a 0); reflexivity. Qed.

Lemma nocalls_test_option_type ot : nocalls (_test_option_type ot).
Proof. unfold _test_option_type. destruct (_ && _); reflexivity. Qed.

Lemma nocalls_check_range lo hi a d : nocalls (check_range lo hi a d).
Proof. unfold check_range. destruct (_ || _); reflexivity. Qed.

Create HintDb nocalls.
#[export] Hint Resolve nocalls_ret nocalls_print nocalls_py_div nocalls_math_sqrt
  nocalls_math_log nocalls_test_option_type nocalls_check_range : nocalls.

Ltac nocalls_tac :=
  repeat first
    [ apply nocalls_bind; [|intros ?]
    | progress auto with nocalls
    | match goal with |- nocalls (if ?c then _ else _) => destruct c end ].

Lemma nocalls_gbs_test_inputs ot fs x t r b v :
  nocalls (_gbs_test_inputs ot fs x t r b v).
Proof. unfold _gbs_test_inputs. nocalls_tac. Qed.

Lemma nocalls_gbs ot fs x t r b v : nocalls (_gbs ot fs x t r b v).
Proof.
  unfold _gbs. apply nocalls_bind; [apply nocalls_gbs_test_inputs|intros _].
  nocalls_tac.
Qed.

Lemma nocalls_approx ot fs x t r b cp :
  nocalls (_vol_implicite_approx ot fs x t r b cp).
Proof. unfold _vol_implicite_approx. nocalls_tac. Qed.

Lemma sat_ret {A : Type} (a : A) (Q : A -> Prop) : Q a -> sat (ret a) Q.
Proof.
  intros H. split; [constructor|].
  intros a' E. inversion E. subst. assumption.
Qed.

Lemma sat_raise {A : Type} (e : exn) (Q : A -> Prop) : sat (raise e) Q.
Proof. split; [constructor|]. intros a E. discriminate. Qed.

Lemma sat_bind {A B : Type} (m : M A) (f : A -> M B)
    (P : A -> Prop) (Q : B -> Prop) :
  sat m P -> (forall a, P a -> sat (f a) Q) -> sat (bind m f) Q.
Proof.
  intros [Hc Hp] Hf. destruct m as [l [e|a]]; simpl in *.
  - split; [assumption|]. intros a' E. discriminate.
  - destruct (Hf a (Hp a eq_refl)) as [Hc' Hq]. split.
    + unfold log_of; simpl. rewrite calls_app. apply Forall_app. split; assumption.
    + exact Hq.
Qed.

Lemma sat_nocalls {A : Type} (m : M A) (Q : A -> Prop) :
  nocalls m -> (forall a, outcome m = inr a -> Q a) -> sat m Q.
Proof. intros Hn Hq. split; [rewrite Hn; constructor|assumption]. Qed.

Lemma sat_weaken {A : Type} (m : M A) (P Q : A -> Prop) :
  sat m P -> (forall a, P a -> Q a) -> sat m Q.
Proof. intros [Hc Hp] H. split; [assumption|]. intros a E. apply H, Hp, E. Qed.

Lemma in_band_clamp v : in_band (Rmin MAX_V (Rmax MIN_V v)).
Proof.
  unfold in_band, MIN_V, MAX_V, Rmin, Rmax.
  destruct (Rle_dec (5 / 1000) v); destruct (Rle_dec 1 _); lra.
Qed.

Lemma in_band_interpolate v_low v_high cp cp_low cp_high :
  in_band (interpolate v_low v_high cp cp_low cp_high).
Proof.
  unfold interpolate. destruct (Reqb _ _); [|apply in_band_clamp].
  destruct (Rltb _ _); unfold in_band, MIN_V, MAX_V; lra.
Qed.

Section SearchInvariants.

Variable val_fn : pricer.
Variable option_type : string.
Variables fs x t r b cp precision : R.

(** The pricing function itself marks no evaluation. *)
Hypothesis val_fn_nocalls : forall v, nocalls (val_fn option_type fs x t r b v).

Local Abbreviation priced := (priced val_fn option_type fs x t r b).
Local Abbreviation solves := (solves val_fn option_type fs x t r b cp precision).
Local Abbreviation bisect_inv := (bisect_inv val_fn option_type fs x t r b).
Local Abbreviation newton_inv := (newton_inv val_fn option_type fs x t r b).
Local Abbreviation newton_post := (newton_post val_fn option_type fs x t r b cp precision).

Lemma sat_call v :
  in_band v ->
  sat (call_val_fn val_fn option_type fs x t r b v)
      (fun p => priced v (value_of p)).
Proof.
  intros Hv. unfold call_val_fn, mark_call.
  split.
  - unfold log_of. rewrite bind_inr. cbn [fst].
    change (Forall in_band (v :: calls (log_of (val_fn option_type fs x t r b v)))).
    rewrite val_fn_nocalls. constructor; [assumption|constructor].
  - intros p E. exists p. split; [|reflexivity]. exact E.
Qed.

Lemma bisect_body_sat st :
  bisect_inv st ->
  sat (bisect_body val_fn option_type fs x t r b cp st) bisect_inv.
Proof.
  intros (Hl & Hh & Hm & Hp). unfold bisect_body. cbv zeta.
  assert (Hl' : in_band (if Rltb (cp_mid st) cp then v_mid st else v_low st))
    by (destruct (Rltb _ _); assumption).
  assert (Hh' : in_band (if Rltb (cp_mid st) cp then v_high st else v_mid st))
    by (destruct (Rltb _ _); assumption).
  eapply sat_bind; [apply sat_call; assumption|]. intros p_low _.
  eapply sat_bind; [apply sat_call; assumption|]. intros p_high _.
  eapply sat_bind; [apply sat_call; apply in_band_interpolate|]. intros p_mid Hpm.
  apply sat_ret. unfold bisect_inv; cbn [v_low v_high v_mid cp_mid].
  split; [assumption|]. split; [assumption|].
  split; [apply in_band_interpolate|exact Hpm].
Qed.

Lemma bisect_loop_sat n : forall st,
  bisect_inv st ->
  sat (bisect_loop val_fn option_type fs x t r b cp precision n st) bisect_inv.
Proof.
  induction n as [|n IH]; intros st Hst; simpl.
  - apply sat_ret; assumption.
  - destruct (Rltb precision (diff st)).
    + eapply sat_bind; [apply bisect_body_sat; assumption|]. exact IH.
    + apply sat_ret; assumption.
Qed.

Lemma bisect_finish_sat st :
  bisect_inv st -> sat (bisect_finish cp precision st) solves.
Proof.
  intros (Hl & Hh & Hm & Hp). unfold bisect_finish.
  destruct (Rltb _ _) eqn:E.
  - apply sat_ret. apply Rltb_spec in E.
    split; [assumption|]. exists (cp_mid st). split; assumption.
  - apply sat_raise.
Qed.

Lemma bisect_start_band v :
  Rleb v MIN_V || Rleb MAX_V v = false ->
  in_band (Rmax MIN_V (v * (5 / 10))) /\ in_band (Rmin MAX_V (v * (15 / 10))) /\
  in_band v.
Proof.
  intros H. apply orb_false_iff in H. destruct H as [H1 H2].
  apply Rleb_nspec in H1. apply Rleb_nspec in H2.
  unfold in_band, Rmax, Rmin, MIN_V, MAX_V in *.
  destruct (Rle_dec (5 / 1000) _); destruct (Rle_dec 1 _); lra.
Qed.

Lemma rech_dichotomique_sat max_steps :
  sat (_rech_dichotomique_vol_implicite val_fn option_type fs x t r b cp
         precision max_steps) solves.
Proof.
  unfold _rech_dichotomique_vol_implicite.
  eapply sat_bind;
    [apply sat_nocalls with (Q := fun _ => True); [apply nocalls_approx|trivial]|].
  intros v0 _. cbv zeta.
  destruct (Rleb v0 MIN_V || Rleb MAX_V v0) eqn:E.
  - assert (Hmid : in_band ((MIN_V + MAX_V) / 2))
      by (unfold in_band, MIN_V, MAX_V; lra).
    eapply sat_bind; [apply sat_call; exact Hmid|]. intros p Hp.
    eapply sat_bind; [|apply bisect_finish_sat].
    apply bisect_loop_sat. unfold bisect_inv; cbn [v_low v_high v_mid cp_mid].
    split; [unfold in_band, MIN_V, MAX_V; lra|].
    split; [unfold in_band, MIN_V, MAX_V; lra|].
    split; [exact Hmid|exact Hp].
  - destruct (bisect_start_band v0 E) as (Hl & Hh & Hm).
    eapply sat_bind; [apply sat_call; exact Hm|]. intros p Hp.
    eapply sat_bind; [|apply bisect_finish_sat].
    apply bisect_loop_sat. unfold bisect_inv; cbn [v_low v_high v_mid cp_mid].
    split; [exact Hl|]. split; [exact Hh|]. split; [exact Hm|exact Hp].
Qed.

Lemma newton_body_sat st :
  newton_guard cp precision st = true ->
  sat (newton_body val_fn option_type fs x t r b cp st)
      (fun br => if fst br then precision <= Rabs (cp - nr_value (snd br))
                 else newton_inv (snd br)).
Proof.
  intros Hg. apply newton_guard_spec in Hg. unfold newton_body.
  eapply sat_bind;
    [apply sat_nocalls with (Q := fun _ => True); [apply nocalls_py_div|trivial]|].
  intros d _. cbv zeta.
  destruct (Rltb MAX_V (nr_v st - d) || Rltb (nr_v st - d) MIN_V) eqn:E.
  - eapply sat_bind;
      [apply sat_nocalls with (Q := fun _ => True); [apply nocalls_print|trivial]|].
    intros _ _. apply sat_ret. cbn [fst snd nr_value]. lra.
  - apply orb_false_iff in E. destruct E as [E1 E2].
    apply Rltb_nspec in E1. apply Rltb_nspec in E2.
    assert (Hb : in_band (nr_v st - d)) by (split; assumption).
    eapply sat_bind; [apply sat_call; exact Hb|]. intros p Hp.
    apply sat_ret. cbn [fst snd]. split; assumption.
Qed.

Lemma newton_loop_sat n : forall st,
  newton_inv st ->
  sat (newton_loop val_fn option_type fs x t r b cp precision n st) newton_post.
Proof.
  induction n as [|n IH]; intros st Hst; simpl.
  - apply sat_ret. left; assumption.
  - destruct (newton_guard cp precision st) eqn:Hg.
    + eapply sat_bind; [apply newton_body_sat; assumption|].
      intros [brk st'] Hbr. cbn [fst snd] in *. destruct brk.
      * apply sat_ret. right; assumption.
      * apply IH; assumption.
    + apply sat_ret. left; assumption.
Qed.

Lemma newton_finish_sat max_steps st :
  newton_post st ->
  sat (newton_finish val_fn option_type fs x t r b cp precision max_steps st) solves.
Proof.
  intros Hst. unfold newton_finish. destruct (Rltb _ _) eqn:E.
  - apply Rltb_spec in E. destruct Hst as [[Hb Hp]|Hge]; [|lra].
    apply sat_ret. split; [assumption|]. exists (nr_value st). split; assumption.
  - apply rech_dichotomique_sat.
Qed.

Lemma newton_vol_implicite_sat max_steps :
  sat (_newton_vol_implicite val_fn option_type x fs t b r cp precision max_steps)
      solves.
Proof.
  unfold _newton_vol_implicite.
  eapply sat_bind;
    [apply sat_nocalls with (Q := fun _ => True);
     [apply nocalls_test_option_type|trivial]|].
  intros _ _.
  eapply sat_bind;
    [apply sat_nocalls with (Q := fun _ => True); [apply nocalls_approx|trivial]|].
  intros v0 _. cbv zeta.
  eapply sat_bind; [apply sat_call; apply in_band_clamp|]. intros p Hp.
  eapply sat_bind; [|apply newton_finish_sat].
  apply newton_loop_sat. split; cbn [nr_v nr_value]; [apply in_band_clamp|assumption].
Qed.

End SearchInvariants.


(** ** The round trip *)

Lemma atm_start_bounds :
  1 / 2 - 53 / 1000000 <= atm_start <= 1 / 2 - 52 / 1000000.
Proof.
  unfold atm_start.
  pose proof (cdf_series_bounds (1 / 1600) ltac:(lra)) as H. lra.
Qed.

Lemma atm_price_half : atm_price (1 / 2) = atm_start / (10 * sqrt (2 * PI)).
Proof.
  unfold atm_price, atm_start.
  replace (1 / 2 * (1 / 2) / 400) with (1 / 1600) by lra.
  pose proof sqrt_2PI_pos. field. lra.
Qed.

Lemma atm_price_half_pos : 0 <= atm_price (1 / 2).
Proof.
  rewrite atm_price_half. pose proof atm_start_bounds. pose proof sqrt_2PI_pos.
  apply Rmult_le_pos; [lra|]. left. apply Rinv_0_lt_compat. lra.
Qed.

Lemma atm_start_is_approx : 10 * sqrt (2 * PI) * atm_price (1 / 2) = atm_start.
Proof. rewrite atm_price_half. pose proof sqrt_2PI_pos. field. lra. Qed.

(** The price at the starting point is within 10^-5 of the target. *)
Lemma atm_start_residual :
  Rabs (atm_price (1 / 2) - atm_price atm_start) < 1 / 100000.
Proof.
  pose proof atm_start_bounds as Hb.
  set (y0 := atm_start * atm_start / 400).
  assert (Hy0 : 0 <= y0 <= 1 / 1600) by (unfold y0; nra).
  pose proof (cdf_series_bounds y0 ltac:(lra)) as Hs.
  pose proof sqrt_2PI_ge_2 as H2.
  assert (Hk : 0 < / (10 * sqrt (2 * PI)) <= 1 / 20).
  { split; [apply Rinv_0_lt_compat; lra|].
    replace (1 / 20) with (/ 20) by lra. apply Rinv_le_contravar; lra. }
  assert (E : atm_price (1 / 2) - atm_price atm_start
              = atm_start * (1 - cdf_series y0) * / (10 * sqrt (2 * PI))).
  { rewrite atm_price_half. unfold atm_price. fold y0. field. lra. }
  rewrite E. set (k := / (10 * sqrt (2 * PI))) in *.
  assert (Hd : 0 <= 1 - cdf_series y0 <= 1 / 9000) by nra.
  set (d := 1 - cdf_series y0) in *.
  assert (Hsd : 0 <= atm_start * d <= 1 / 18000) by nra.
  set (sd := atm_start * d) in *.
  rewrite Rabs_eval_pos by nra. nra.
Qed.

(** The run of the solver on that target: the starting point is accepted
    at once. *)
Lemma atm_round_trip_run :
  _gbs_vol_implicite "c" 1 1 (1 / 100) 0 0 (atm_price (1 / 2))
    default_precision default_max_steps =
  ([Call atm_start], inr atm_start).
Proof.
  pose proof atm_start_bounds as Hb.
  assert (Hband : MIN_V <= atm_start <= MAX_V) by (unfold MIN_V, MAX_V; lra).
  destruct (gbs_atm atm_start Hband) as [p [Hp Hval]].
  unfold _gbs_vol_implicite, _newton_vol_implicite.
  rewrite test_option_type_valid, bind_ret_l by (left; reflexivity).
  rewrite approx_atm, bind_ret_l by apply atm_price_half_pos.
  rewrite atm_start_is_approx. cbv zeta.
  rewrite (Rmax_right MIN_V atm_start) by lra.
  rewrite (Rmin_right MAX_V atm_start) by lra.
  rewrite (bind_call _gbs _ _ _ _ _ _ _ p _ Hp).
  rewrite Hval.
  pose proof atm_start_residual as Hres. fold default_precision in Hres.
  rewrite newton_loop_stop.
  2:{ unfold newton_guard; cbn [nr_value].
      rewrite (Rleb_false default_precision) by assumption. reflexivity. }
  rewrite bind_ret_l.
  rewrite newton_finish_converged by (cbn [nr_value]; assumption).
  reflexivity.
Qed.

(** C6, as stated, fails.  The at-the-money call with spot = strike = 1,
    t = 1/100, no rates and volatility 1/2 is inside the Domain Limits; on
    its own price the solver, with the default precision 10^-5 and 100
    steps, returns its starting point, which is more than 10^-5 away from
    1/2. *)
Lemma round_trip_misses_volatility :
  within_limits 1 1 (1 / 100) 0 0 (1 / 2) /\
  exists (p : pricing) (v' : R),
    _gbs "c" 1 1 (1 / 100) 0 0 (1 / 2) = ret p /\
    _gbs_vol_implicite "c" 1 1 (1 / 100) 0 0 (value_of p)
      default_precision default_max_steps = ([Call v'], inr v') /\
    default_precision < Rabs (v' - 1 / 2).
Proof.
  assert (Hh : MIN_V <= 1 / 2 <= MAX_V) by (unfold MIN_V, MAX_V; lra).
  split; [apply atm_within_limits; exact Hh|].
  destruct (gbs_atm (1 / 2) Hh) as [p [Hp Hval]].
  exists p, atm_start. split; [exact Hp|]. split.
  - rewrite Hval. apply atm_round_trip_run.
  - pose proof atm_start_bounds. unfold default_precision.
    rewrite Rabs_eval_neg by lra. lra.
Qed.

(** The solver cannot return when the precision asked for is not positive:
    returning is not guaranteed by the code. *)
Lemma solver_needs_positive_precision ot fs x t r b cp precision max_steps :
  precision <= 0 ->
  forall v, outcome (_gbs_vol_implicite ot fs x t r b cp precision max_steps) <> inr v.
Proof.
  intros Hp v E.
  destruct (newton_vol_implicite_sat _gbs ot fs x t r b cp precision
              (nocalls_gbs ot fs x t r b) max_steps) as [_ Hr].
  destruct (Hr v E) as (_ & value & _ & Hlt).
  pose proof (Rabs_pos (cp - value)). lra.
Qed.

(** C6, as the code has it.  Round trip on the price: when cp is the value
    that [_gbs] returns at a volatility v and the solver, run on cp, returns
    a volatility v', then v' lies in [MIN_V, MAX_V] and the value that
    [_gbs] returns at v' is within [precision] of cp.  (The solver may
    raise instead, and v' need not be within [precision] of v.) *)
Theorem round_trip_reprices (ot : string) (fs x t r b v precision : R)
    (max_steps : nat) (p : pricing) (v' : R) :
  outcome (_gbs ot fs x t r b v) = inr p ->
  outcome (_gbs_vol_implicite ot fs x t r b (value_of p) precision max_steps)
    = inr v' ->
  MIN_V <= v' <= MAX_V /\
  exists p' : pricing,
    outcome (_gbs ot fs x t r b v') = inr p' /\
    Rabs (value_of p - value_of p') < precision.
Proof.
  intros _ E.
  destruct (newton_vol_implicite_sat _gbs ot fs x t r b (value_of p) precision
              (nocalls_gbs ot fs x t r b) max_steps) as [_ Hr].
  destruct (Hr v' E) as (Hb & value & (p' & Hp' & Hv) & Hlt).
  split; [exact Hb|]. exists p'. split; [exact Hp'|]. rewrite Hv. exact Hlt.
Qed.

Lemma round_trip_reprices_witness :
  exists p p' : pricing,
    outcome (_gbs "c" 1 1 (1 / 100) 0 0 (1 / 2)) = inr p /\
    outcome (_gbs_vol_implicite "c" 1 1 (1 / 100) 0 0 (value_of p)
               default_precision default_max_steps) = inr atm_start /\
    MIN_V <= atm_start <= MAX_V /\
    outcome (_gbs "c" 1 1 (1 / 100) 0 0 atm_start) = inr p' /\
    Rabs (value_of p - value_of p') < default_precision.
Proof.
  assert (Hh : MIN_V <= 1 / 2 <= MAX_V) by (unfold MIN_V, MAX_V; lra).
  destruct (gbs_atm (1 / 2) Hh) as [p [Hp Hval]].
  assert (Hout : outcome (_gbs "c" 1 1 (1 / 100) 0 0 (1 / 2)) = inr p)
    by (rewrite Hp; reflexivity).
  assert (Hrun : outcome (_gbs_vol_implicite "c" 1 1 (1 / 100) 0 0 (value_of p)
                            default_precision default_max_steps) = inr atm_start)
    by (rewrite Hval, atm_round_trip_run; reflexivity).
  destruct (round_trip_reprices "c" 1 1 (1 / 100) 0 0 (1 / 2) default_precision
              default_max_steps p atm_start Hout Hrun) as [Hb [p' [Hp' Hlt]]].
  exists p, p'. repeat split; try assumption; apply Hb.
Defined.

(** ** An option type that is not "c" *)

Lemma bind_assoc {A B C : Type} (m : M A) (f : A -> M B) (g : B -> M C) :
  bind (bind m f) g = bind m (fun a => bind (f a) g).
Proof.
  destruct m as [l [e|a]]; [reflexivity|].
  simpl. destruct (f a) as [l' [e|b']]; simpl; [reflexivity|].
  rewrite app_assoc. reflexivity.
Qed.

Lemma gbs_not_call_as_put ot fs x t r b v :
  ot <> "c"%string ->
  _gbs ot fs x t r b v = _test_option_type ot ;;; _gbs "p" fs x t r b v.
Proof.
  intros Hot. apply String.eqb_neq in Hot.
  unfold _gbs, _gbs_test_inputs.
  rewrite (test_option_type_valid "p") by (right; reflexivity).
  rewrite (bind_ret_l tt). rewrite !bind_assoc. rewrite Hot.
  change (String.eqb "p" "c") with false. cbv iota.
  reflexivity.
Qed.

Lemma approx_not_call_as_put ot fs x t r b cp :
  ot <> "c"%string ->
  _vol_implicite_approx ot fs x t r b cp =
  _test_option_type ot ;;; _vol_implicite_approx "p" fs x t r b cp.
Proof.
  intros Hot. apply String.eqb_neq in Hot.
  unfold _vol_implicite_approx.
  rewrite (test_option_type_valid "p") by (right; reflexivity).
  rewrite (bind_ret_l tt). rewrite Hot.
  change (String.eqb "p" "c") with false. cbv iota.
  reflexivity.
Qed.

Lemma alike_refl {A : Type} (m : M A) : alike m m.
Proof. split; reflexivity. Qed.

Lemma alike_bind {A B : Type} (m1 m2 : M A) (f1 f2 : A -> M B) :
  alike m1 m2 -> (forall a, alike (f1 a) (f2 a)) ->
  alike (bind m1 f1) (bind m2 f2).
Proof.
  unfold alike. intros [Ho Hc] Hf.
  destruct m1 as [l1 [e1|a1]]; destruct m2 as [l2 [e2|a2]];
    unfold outcome, log_of in *; cbn [bind fst snd] in *; try discriminate.
  - inversion Ho; subst. split; [reflexivity|assumption].
  - inversion Ho; subst. destruct (Hf a2) as [Ho' Hc'].
    split; [exact Ho'|]. rewrite !calls_app, Hc. f_equal. exact Hc'.
Qed.

Lemma alike_test_option_type ot1 ot2 :
  alike (_test_option_type ot1) (_test_option_type ot2).
Proof.
  split.
  - rewrite !test_option_type_outcome. reflexivity.
  - rewrite (nocalls_test_option_type ot1), (nocalls_test_option_type ot2).
    reflexivity.
Qed.

Lemma alike_skip_test {A : Type} ot (m : M A) :
  alike (_test_option_type ot ;;; m) m.
Proof.
  pose proof (test_option_type_outcome ot) as Ho.
  pose proof (nocalls_test_option_type ot) as Hc.
  destruct (_test_option_type ot) as [l [e|[]]];
    unfold alike, nocalls in *; unfold outcome, log_of in *;
    cbn [bind fst snd] in *; [discriminate|].
  split; [reflexivity|]. rewrite calls_app, Hc. reflexivity.
Qed.

Section AlikeSearches.

Variables val_fn1 val_fn2 : pricer.
Variables ot1 ot2 : string.
Variables fs x t r b cp precision : R.

Hypothesis val_fn_alike :
  forall v, alike (val_fn1 ot1 fs x t r b v) (val_fn2 ot2 fs x t r b v).
Hypothesis approx_alike :
  alike (_vol_implicite_approx ot1 fs x t r b cp)
        (_vol_implicite_approx ot2 fs x t r b cp).

Lemma alike_call v :
  alike (call_val_fn val_fn1 ot1 fs x t r b v)
        (call_val_fn val_fn2 ot2 fs x t r b v).
Proof.
  unfold call_val_fn. apply alike_bind; [apply alike_refl|].
  intros _. apply val_fn_alike.
Qed.

Lemma alike_bisect_body st :
  alike (bisect_body val_fn1 ot1 fs x t r b cp st)
        (bisect_body val_fn2 ot2 fs x t r b cp st).
Proof.
  unfold bisect_body. cbv zeta.
  apply alike_bind; [apply alike_call|]. intros p_low.
  apply alike_bind; [apply alike_call|]. intros p_high.
  apply alike_bind; [apply alike_call|]. intros p_mid.
  apply alike_refl.
Qed.

Lemma alike_bisect_loop n : forall st,
  alike (bisect_loop val_fn1 ot1 fs x t r b cp precision n st)
        (bisect_loop val_fn2 ot2 fs x t r b cp precision n st).
Proof.
  induction n as [|n IH]; intros st; simpl; [apply alike_refl|].
  destruct (Rltb precision (diff st)); [|apply alike_refl].
  apply alike_bind; [apply alike_bisect_body|]. exact IH.
Qed.

Lemma alike_rech_dichotomique max_steps :
  alike (_rech_dichotomique_vol_implicite val_fn1 ot1 fs x t r b cp precision
           max_steps)
        (_rech_dichotomique_vol_implicite val_fn2 ot2 fs x t r b cp precision
           max_steps).
Proof.
  unfold _rech_dichotomique_vol_implicite.
  apply alike_bind; [apply approx_alike|]. intros v0. cbv zeta.
  apply alike_bind; [apply alike_call|]. intros p.
  apply alike_bind; [apply alike_bisect_loop|]. intros st.
  apply alike_refl.
Qed.

Lemma alike_newton_body st :
  alike (newton_body val_fn1 ot1 fs x t r b cp st)
        (newton_body val_fn2 ot2 fs x t r b cp st).
Proof.
  unfold newton_body.
  apply alike_bind; [apply alike_refl|]. intros d. cbv zeta.
  destruct (_ || _); [apply alike_refl|].
  apply alike_bind; [apply alike_call|]. intros p. apply alike_refl.
Qed.

Lemma alike_newton_loop n : forall st,
  alike (newton_loop val_fn1 ot1 fs x t r b cp precision n st)
        (newton_loop val_fn2 ot2 fs x t r b cp precision n st).
Proof.
  induction n as [|n IH]; intros st; simpl; [apply alike_refl|].
  destruct (newton_guard cp precision st); [|apply alike_refl].
  apply alike_bind; [apply alike_newton_body|]. intros [brk st'].
  cbn [fst snd]. destruct brk; [apply alike_refl|apply IH].
Qed.

Lemma alike_newton_vol_implicite max_steps :
  alike (_newton_vol_implicite val_fn1 ot1 x fs t b r cp precision max_steps)
        (_newton_vol_implicite val_fn2 ot2 x fs t b r cp precision max_steps).
Proof.
  unfold _newton_vol_implicite.
  apply alike_bind; [apply alike_test_option_type|]. intros _.
  apply alike_bind; [apply approx_alike|]. intros v0. cbv zeta.
  apply alike_bind; [apply alike_call|]. intros p.
  apply alike_bind; [apply alike_newton_loop|]. intros st.
  unfold newton_finish. destruct (Rltb _ _); [apply alike_refl|].
  apply alike_rech_dichotomique.
Qed.

End AlikeSearches.

Lemma alike_gbs_put ot fs x t r b v :
  ot <> "c"%string ->
  alike (_gbs ot fs x t r b v) (_gbs "p" fs x t r b v).
Proof.
  intros Hot. rewrite (gbs_not_call_as_put ot) by assumption.
  apply alike_skip_test.
Qed.

Lemma alike_approx_put ot fs x t r b cp :
  ot <> "c"%string ->
  alike (_vol_implicite_approx ot fs x t r b cp)
        (_vol_implicite_approx "p" fs x t r b cp).
Proof.
  intros Hot. rewrite (approx_not_call_as_put ot) by assumption.
  apply alike_skip_test.
Qed.



(** * Further properties *)

(** ** What the input check prints *)

Lemma check_range_silent lo hi a d :
  check_range lo hi a d = ret tt <-> lo <= a <= hi.
Proof.
  split; [|apply check_range_in].
  unfold check_range. intros H.
  destruct (Rltb a lo) eqn:E1; [discriminate|].
  destruct (Rltb hi a) eqn:E2; [discriminate|].
  apply Rltb_nspec in E1. apply Rltb_nspec in E2. lra.
Qed.

Lemma test_option_type_silent ot :
  _test_option_type ot = ret tt <-> ot = "c"%string \/ ot = "p"%string.
Proof.
  split; [|apply test_option_type_valid].
  unfold _test_option_type. intros H.
  destruct (String.eqb ot "c") eqn:Ec.
  - left. apply String.eqb_eq. assumption.
  - destruct (String.eqb ot "p") eqn:Ep; [|discriminate].
    right. apply String.eqb_eq. assumption.
Qed.

(** A step that returns [tt] and a rest that together print nothing: both
    print nothing. *)
Lemma bind_unit_silent (m k : M unit) :
  outcome m = inr tt -> (m ;;; k) = ret tt -> m = ret tt /\ k = ret tt.
Proof.
  destruct m as [l [e|[]]]; unfold outcome; simpl; [discriminate|].
  intros _ H. destruct k as [l' [e|[]]]; simpl in H; inversion H as [[H1]].
  apply app_eq_nil in H1. destruct H1 as [-> ->]. split; reflexivity.
Qed.

(** X1.  The input check prints nothing exactly when the option type is "c" or
    "p" and the six numbers are inside their limits. *)
Theorem gbs_test_inputs_silent_iff (ot : string) (fs x t r b v : R) :
  _gbs_test_inputs ot fs x t r b v = ret tt <->
  (ot = "c"%string \/ ot = "p"%string) /\ within_limits fs x t r b v.
Proof.
  split.
  - unfold _gbs_test_inputs. intros H.
    apply bind_unit_silent in H; [|apply test_option_type_outcome].
    destruct H as [H0 H].
    apply bind_unit_silent in H; [|apply check_range_outcome]. destruct H as [H1 H].
    apply bind_unit_silent in H; [|apply check_range_outcome]. destruct H as [H2 H].
    apply bind_unit_silent in H; [|apply check_range_outcome]. destruct H as [H3 H].
    apply bind_unit_silent in H; [|apply check_range_outcome]. destruct H as [H4 H].
    apply bind_unit_silent in H; [|apply check_range_outcome]. destruct H as [H5 H6].
    apply test_option_type_silent in H0.
    apply check_range_silent in H1, H2, H3, H4, H5, H6.
    split; [assumption|]. unfold within_limits. tauto.
  - intros [Hot Hw]. apply gbs_test_inputs_quiet; assumption.
Qed.

(** ** The Greeks of the call and of the put *)

(** X2.  Where the formula is defined, delta, theta and rho of the call and of
    the put differ by the derivatives of the parity term:
    delta_c - delta_p = e^((b-r)t),
    theta_c - theta_p = -(b-r) fs e^((b-r)t) - r x e^(-rt),
    rho_c - rho_p = x t e^(-rt). *)
Theorem gbs_greeks_parity (fs x t r b v : R) :
  gbs_defined fs x t v ->
  exists c p : pricing,
    outcome (_gbs "c" fs x t r b v) = inr c /\
    outcome (_gbs "p" fs x t r b v) = inr p /\
    delta_of c - delta_of p = exp ((b - r) * t) /\
    theta_of c - theta_of p =
      - (b - r) * fs * exp ((b - r) * t) - r * x * exp (- r * t) /\
    rho_of c - rho_of p = x * t * exp (- r * t).
Proof.
  intros Hd.
  pose proof (gbs_call_outcome fs x t r b v Hd) as Hc.
  pose proof (gbs_put_outcome "p" fs x t r b v ltac:(discriminate) Hd) as Hp.
  cbv zeta in Hc, Hp.
  eexists. eexists. split; [exact Hc|]. split; [exact Hp|].
  unfold delta_of, theta_of, rho_of. rewrite !norm_cdf_opp.
  repeat split; unfold Rdiv; ring.
Qed.

Lemma gbs_greeks_parity_witness :
  exists c p : pricing,
    outcome (_gbs "c" 20 18 1 (5 / 100) (5 / 100) (15 / 100)) = inr c /\
    outcome (_gbs "p" 20 18 1 (5 / 100) (5 / 100) (15 / 100)) = inr p /\
    delta_of c - delta_of p = exp ((5 / 100 - 5 / 100) * 1) /\
    theta_of c - theta_of p =
      - (5 / 100 - 5 / 100) * 20 * exp ((5 / 100 - 5 / 100) * 1)
      - 5 / 100 * 18 * exp (- (5 / 100) * 1) /\
    rho_of c - rho_of p = 18 * 1 * exp (- (5 / 100) * 1).
Proof.
  apply (gbs_greeks_parity 20 18 1 (5 / 100) (5 / 100) (15 / 100)).
  unfold gbs_defined. rewrite sqrt_1. lra.
Defined.

Lemma norm_pdf_pos x : 0 < norm_pdf x.
Proof.
  unfold norm_pdf. apply Rdiv_lt_0_compat; [apply exp_pos|apply sqrt_2PI_pos].
Qed.

Lemma positive_defined fs x t v :
  0 < fs -> 0 < x -> 0 < t -> 0 < v -> gbs_defined fs x t v.
Proof.
  intros Hfs Hx Ht Hv. assert (0 < sqrt t) by (apply sqrt_lt_R0; lra).
  unfold gbs_defined. repeat split; try lra.
  - apply Rdiv_lt_0_compat; lra.
  - apply Rgt_not_eq. apply Rmult_lt_0_compat; lra.
Qed.

(** Over the reals the density is positive, and so are gamma and vega. *)
Lemma gbs_positive_outcome (ot : string) (fs x t r b v : R) :
  0 < fs -> 0 < x -> 0 < t -> 0 < v ->
  exists p : pricing,
    outcome (_gbs ot fs x t r b v) = inr p /\ 0 < gamma_of p /\ 0 < vega_of p.
Proof.
  intros Hfs Hx Ht Hv.
  pose proof (positive_defined fs x t v Hfs Hx Ht Hv) as Hd.
  assert (Hs : 0 < sqrt t) by (apply sqrt_lt_R0; lra).
  pose proof (exp_pos ((b - r) * t)) as He.
  pose proof (norm_pdf_pos (d1_of fs x t b v)) as Hn.
  assert (Hg : 0 < exp ((b - r) * t) * norm_pdf (d1_of fs x t b v) / (fs * v * sqrt t)).
  { apply Rdiv_lt_0_compat; [apply Rmult_lt_0_compat; assumption|].
    apply Rmult_lt_0_compat; [apply Rmult_lt_0_compat|]; assumption. }
  assert (Hvg : 0 < exp ((b - r) * t) * fs * sqrt t * norm_pdf (d1_of fs x t b v)).
  { apply Rmult_lt_0_compat; [|assumption].
    apply Rmult_lt_0_compat; [|assumption].
    apply Rmult_lt_0_compat; assumption. }
  destruct (string_dec ot "c") as [-> | Hot].
  - eexists. split; [apply (gbs_call_outcome fs x t r b v Hd)|].
    split; [exact Hg|exact Hvg].
  - eexists. split; [apply (gbs_put_outcome ot fs x t r b v Hot Hd)|].
    split; [exact Hg|exact Hvg].
Qed.

(** ** The vega is the derivative of the value *)

Lemma d1_numerator_deriv L b t v :
  derivable_pt_lim (fun z => L + (b + z * z / 2) * t) v (v * t).
Proof.
  apply derivable_pt_lim_ext
    with (f := plus_fct (fct_cte (L + b * t))
                 (mult_real_fct (t / 2) (mult_fct id id))).
  - intros z. unfold plus_fct, fct_cte, mult_real_fct, mult_fct, id. field.
  - replace (v * t) with (0 + t / 2 * (1 * id v + id v * 1)) by (unfold id; field).
    apply derivable_pt_lim_plus; [apply derivable_pt_lim_const|].
    apply derivable_pt_lim_scal.
    apply derivable_pt_lim_mult; apply derivable_pt_lim_id.
Qed.

Lemma d1_deriv fs x t b v :
  0 < t -> v <> 0 -> exists l, derivable_pt_lim (d1_of fs x t b) v l.
Proof.
  intros Ht Hv. assert (Hs : 0 < sqrt t) by (apply sqrt_lt_R0; lra).
  eexists.
  apply (derivable_pt_lim_div
           (fun z => ln (fs / x) + (b + z * z / 2) * t) (fun z => z * sqrt t)).
  - apply d1_numerator_deriv.
  - apply derivable_pt_lim_ext with (f := mult_real_fct (sqrt t) id).
    + intros z. unfold mult_real_fct, id. ring.
    + apply derivable_pt_lim_scal. apply derivable_pt_lim_id.
  - apply Rmult_integral_contrapositive_currified; lra.
Qed.

Lemma d2_deriv fs x t b v l :
  derivable_pt_lim (d1_of fs x t b) v l ->
  derivable_pt_lim (d2_of fs x t b) v (l - sqrt t).
Proof.
  intros H.
  apply derivable_pt_lim_ext
    with (f := minus_fct (d1_of fs x t b) (mult_real_fct (sqrt t) id)).
  - intros z. unfold minus_fct, mult_real_fct, id, d2_of. ring.
  - apply derivable_pt_lim_minus; [exact H|].
    replace (sqrt t) with (sqrt t * 1) at 2 by ring.
    apply derivable_pt_lim_scal. apply derivable_pt_lim_id.
Qed.

(** The identity behind the vega: strike e^(-rt) phi(d2) = spot e^((b-r)t) phi(d1). *)
Lemma pdf_d1_d2 fs x t r b v :
  0 < fs -> 0 < x -> 0 < t -> v <> 0 ->
  x * exp (- r * t) * norm_pdf (d2_of fs x t b v) =
  fs * exp ((b - r) * t) * norm_pdf (d1_of fs x t b v).
Proof.
  intros Hfs Hx Ht Hv. assert (Hs : 0 < sqrt t) by (apply sqrt_lt_R0; lra).
  assert (Hss : sqrt t * sqrt t = t) by (apply sqrt_sqrt; lra).
  assert (Hq : 0 < fs / x) by (apply Rdiv_lt_0_compat; lra).
  assert (Hvs : v * sqrt t <> 0)
    by (apply Rmult_integral_contrapositive_currified; lra).
  unfold d2_of. set (d1 := d1_of fs x t b v).
  assert (Hn : d1 * (v * sqrt t) = ln (fs / x) + (b + v * v / 2) * t).
  { unfold d1, d1_of. field. split; lra. }
  assert (Hsq : (d1 - v * sqrt t) * (d1 - v * sqrt t)
                = d1 * d1 - 2 * (ln (fs / x) + b * t)).
  { replace ((d1 - v * sqrt t) * (d1 - v * sqrt t))
      with (d1 * d1 - 2 * (d1 * (v * sqrt t)) + v * v * (sqrt t * sqrt t)) by ring.
    rewrite Hn, Hss. field. }
  unfold norm_pdf. rewrite Hsq.
  replace (- (d1 * d1 - 2 * (ln (fs / x) + b * t)) / 2)
    with (ln (fs / x) + (b * t + - (d1 * d1) / 2)) by field.
  rewrite !exp_plus, exp_ln by assumption.
  replace ((b - r) * t) with (b * t + - r * t) by ring.
  rewrite exp_plus.
  pose proof sqrt_2PI_pos. field. lra.
Qed.

Lemma call_formula_deriv fs x t r b v :
  0 < fs -> 0 < x -> 0 < t -> v <> 0 ->
  derivable_pt_lim (call_formula fs x t r b) v (vega_formula fs x t r b v).
Proof.
  intros Hfs Hx Ht Hv.
  destruct (d1_deriv fs x t b v Ht Hv) as [l Hl].
  pose proof (d2_deriv fs x t b v l Hl) as Hl2.
  pose proof (derivable_pt_lim_comp _ _ _ _ _ Hl (norm_cdf_deriv (d1_of fs x t b v)))
    as H1.
  pose proof (derivable_pt_lim_comp _ _ _ _ _ Hl2 (norm_cdf_deriv (d2_of fs x t b v)))
    as H2.
  apply (derivable_pt_lim_scal _ (fs * exp ((b - r) * t))) in H1.
  apply (derivable_pt_lim_scal _ (x * exp (- r * t))) in H2.
  pose proof (derivable_pt_lim_minus _ _ _ _ _ H1 H2) as H.
  apply derivable_pt_lim_ext with (g := call_formula fs x t r b) in H.
  2:{ intros z. reflexivity. }
  replace (vega_formula fs x t r b v)
    with (fs * exp ((b - r) * t) * (norm_pdf (d1_of fs x t b v) * l)
          - x * exp (- r * t) * (norm_pdf (d2_of fs x t b v) * (l - sqrt t)));
    [exact H|].
  replace (x * exp (- r * t) * (norm_pdf (d2_of fs x t b v) * (l - sqrt t)))
    with (x * exp (- r * t) * norm_pdf (d2_of fs x t b v) * (l - sqrt t)) by ring.
  rewrite (pdf_d1_d2 fs x t r b v Hfs Hx Ht Hv).
  unfold vega_formula. ring.
Qed.

Lemma gbs_value_formula ot fs x t r b v p :
  0 < fs -> 0 < x -> 0 < t -> 0 < v ->
  outcome (_gbs ot fs x t r b v) = inr p ->
  value_of p =
    call_formula fs x t r b v
    - (if String.eqb ot "c" then 0
       else fs * exp ((b - r) * t) - x * exp (- r * t)) /\
  vega_of p = vega_formula fs x t r b v.
Proof.
  intros Hfs Hx Ht Hv E.
  pose proof (positive_defined fs x t v Hfs Hx Ht Hv) as Hd.
  destruct (string_dec ot "c") as [-> | Hot].
  - pose proof (gbs_call_outcome fs x t r b v Hd) as Hc. cbv zeta in Hc.
    rewrite Hc in E. inversion E; subst p. clear E.
    change (String.eqb "c" "c") with true. cbv iota.
    unfold value_of, vega_of, call_formula, vega_formula.
    split; [ring|reflexivity].
  - pose proof (gbs_put_outcome ot fs x t r b v Hot Hd) as Hp. cbv zeta in Hp.
    rewrite Hp in E. inversion E; subst p. clear E.
    apply String.eqb_neq in Hot. rewrite Hot.
    unfold value_of, vega_of, call_formula, vega_formula.
    rewrite !norm_cdf_opp. split; [ring|reflexivity].
Qed.

(** X4.  For positive spot, strike, time and volatility, and either option type,
    the vega that [_gbs] returns is the derivative, with respect to the
    volatility, of the value that [_gbs] returns: the Newton-Raphson step
    divides the residual by the true slope.  [f] is any function that is the
    returned value at the positive volatilities. *)
Theorem gbs_vega_is_derivative (ot : string) (fs x t r b v : R) (f : R -> R) :
  0 < fs -> 0 < x -> 0 < t -> 0 < v ->
  (forall z, 0 < z ->
     exists p, outcome (_gbs ot fs x t r b z) = inr p /\ value_of p = f z) ->
  exists p : pricing,
    outcome (_gbs ot fs x t r b v) = inr p /\ derivable_pt_lim f v (vega_of p).
Proof.
  intros Hfs Hx Ht Hv Hf.
  destruct (Hf v Hv) as [p [Hp _]]. exists p. split; [exact Hp|].
  destruct (gbs_value_formula ot fs x t r b v p Hfs Hx Ht Hv Hp) as [_ Hvega].
  rewrite Hvega.
  set (k := if String.eqb ot "c" then 0
            else fs * exp ((b - r) * t) - x * exp (- r * t)).
  apply (derivable_pt_lim_locally_ext
           (minus_fct (call_formula fs x t r b) (fct_cte k)) f v (v / 2) (v + 1)).
  - lra.
  - intros z Hz. destruct (Hf z ltac:(lra)) as [q [Hq Hqv]].
    destruct (gbs_value_formula ot fs x t r b z q Hfs Hx Ht ltac:(lra) Hq) as [Hval _].
    rewrite <- Hqv, Hval. reflexivity.
  - replace (vega_formula fs x t r b v) with (vega_formula fs x t r b v - 0) by ring.
    apply derivable_pt_lim_minus.
    + apply call_formula_deriv; lra.
    + apply derivable_pt_lim_const.
Qed.

Lemma gbs_value_agrees ot fs x t r b z :
  0 < fs -> 0 < x -> 0 < t -> 0 < z ->
  exists p, outcome (_gbs ot fs x t r b z) = inr p /\
            value_of p = gbs_value ot fs x t r b z.
Proof.
  intros Hfs Hx Ht Hz.
  destruct (gbs_defined_returns ot fs x t r b z (positive_defined fs x t z Hfs Hx Ht Hz))
    as [p Hp].
  exists p. split; [exact Hp|]. unfold gbs_value. rewrite Hp. reflexivity.
Qed.

Lemma gbs_vega_is_derivative_witness :
  exists p : pricing,
    outcome (_gbs "p" 100 100 (1 / 2) (3 / 100) (2 / 100) (1 / 5)) = inr p /\
    derivable_pt_lim (gbs_value "p" 100 100 (1 / 2) (3 / 100) (2 / 100)) (1 / 5)
      (vega_of p).
Proof.
  apply (gbs_vega_is_derivative "p" 100 100 (1 / 2) (3 / 100) (2 / 100) (1 / 5)
           (gbs_value "p" 100 100 (1 / 2) (3 / 100) (2 / 100))); try lra.
  intros z Hz. apply gbs_value_agrees; lra.
Defined.

(** X5.  For positive spot, strike and time, and either option type, the value
    that [_gbs] returns is strictly increasing in the volatility, over the
    positive volatilities: two volatilities with the same value are equal,
    so that an implied volatility is unique. *)
Theorem gbs_value_increasing (ot : string) (fs x t r b v1 v2 : R)
    (p1 p2 : pricing) :
  0 < fs -> 0 < x -> 0 < t -> 0 < v1 < v2 ->
  outcome (_gbs ot fs x t r b v1) = inr p1 ->
  outcome (_gbs ot fs x t r b v2) = inr p2 ->
  value_of p1 < value_of p2.
Proof.
  intros Hfs Hx Ht Hv E1 E2.
  destruct (gbs_value_formula ot fs x t r b v1 p1 Hfs Hx Ht ltac:(lra) E1) as [H1 _].
  destruct (gbs_value_formula ot fs x t r b v2 p2 Hfs Hx Ht ltac:(lra) E2) as [H2 _].
  destruct (MVT_cor2 (call_formula fs x t r b) (vega_formula fs x t r b) v1 v2)
    as [c [Hc Hcin]]; [lra| |].
  - intros c Hc. apply call_formula_deriv; lra.
  - assert (Hpos : 0 < vega_formula fs x t r b c).
    { unfold vega_formula.
      assert (0 < sqrt t) by (apply sqrt_lt_R0; lra).
      pose proof (exp_pos ((b - r) * t)). pose proof (norm_pdf_pos (d1_of fs x t b c)).
      apply Rmult_lt_0_compat; [|assumption].
      apply Rmult_lt_0_compat; [|assumption].
      apply Rmult_lt_0_compat; assumption. }
    assert (0 < vega_formula fs x t r b c * (v2 - v1))
      by (apply Rmult_lt_0_compat; lra).
    rewrite H1, H2. lra.
Qed.

Lemma gbs_value_increasing_witness :
  exists p1 p2 : pricing,
    outcome (_gbs "c" 100 100 (1 / 2) (3 / 100) (2 / 100) (1 / 5)) = inr p1 /\
    outcome (_gbs "c" 100 100 (1 / 2) (3 / 100) (2 / 100) (2 / 5)) = inr p2 /\
    value_of p1 < value_of p2.
Proof.
  destruct (gbs_defined_returns "c" 100 100 (1 / 2) (3 / 100) (2 / 100) (1 / 5))
    as [p1 H1]; [apply positive_defined; lra|].
  destruct (gbs_defined_returns "c" 100 100 (1 / 2) (3 / 100) (2 / 100) (2 / 5))
    as [p2 H2]; [apply positive_defined; lra|].
  exists p1, p2. split; [exact H1|]. split; [exact H2|].
  apply (gbs_value_increasing "c" 100 100 (1 / 2) (3 / 100) (2 / 100) (1 / 5) (2 / 5)
           p1 p2); try lra; assumption.
Defined.

(** ** The starting point *)

Lemma approx_radicand_nonneg (b' payoff : R) : 0 <= b' ^ 2 + payoff ^ 2 / PI.
Proof.
  pose proof PI_RGT_0. pose proof (pow2_ge_0 b'). pose proof (pow2_ge_0 payoff).
  assert (0 <= payoff ^ 2 / PI).
  { apply Rmult_le_pos; [assumption|]. left. apply Rinv_0_lt_compat. lra. }
  lra.
Qed.

Lemma approx_sum_nonneg (b' c : R) : 0 <= c -> 0 <= b' + sqrt (b' ^ 2 + c).
Proof.
  intros Hc.
  assert (H : Rabs b' <= sqrt (b' ^ 2 + c)).
  { apply Rle_trans with (sqrt (Rabs b' ^ 2)).
    - rewrite sqrt_pow2 by apply Rabs_pos. lra.
    - apply sqrt_le_1_alt. rewrite pow2_abs. lra. }
  pose proof (Rle_abs (- b')). rewrite Rabs_Ropp in H0. lra.
Qed.

Lemma approx_positive_inputs (ot : string) (fs x t r b cp : R) :
  0 < fs -> 0 < x -> 0 < t ->
  exists v0 : R,
    _vol_implicite_approx ot fs x t r b cp = (log_of (_test_option_type ot), inr v0) /\
    0 <= v0.
Proof.
  intros Hfs Hx Ht. unfold _vol_implicite_approx. cbv zeta.
  pose proof (exp_pos ((b - r) * t)) as He. pose proof (exp_pos (- r * t)) as Hr.
  assert (Hden : 0 < fs * exp ((b - r) * t) + x * exp (- r * t)).
  { assert (0 < fs * exp ((b - r) * t)) by (apply Rmult_lt_0_compat; assumption).
    assert (0 < x * exp (- r * t)) by (apply Rmult_lt_0_compat; assumption). lra. }
  assert (Hs : 0 < sqrt t) by (apply sqrt_lt_R0; lra).
  pose proof sqrt_2PI_pos as H2pi. pose proof PI_RGT_0 as Hpi.
  set (payoff := if String.eqb ot "c"
                 then fs * exp ((b - r) * t) - x * exp (- r * t)
                 else x * exp (- r * t) - fs * exp ((b - r) * t)).
  eexists. split.
  - rewrite (M_eta (_test_option_type ot)), test_option_type_outcome.
    rewrite bind_inr.
    rewrite math_sqrt_ok, bind_ret_l by lra.
    rewrite py_div_ok, bind_ret_l by lra.
    rewrite math_sqrt_ok, bind_ret_l by apply approx_radicand_nonneg.
    rewrite math_sqrt_ok, bind_ret_l by lra.
    rewrite py_div_ok, bind_ret_l by lra.
    unfold log_of, outcome, ret; cbn [fst snd]. rewrite app_nil_r. reflexivity.
  - apply Rmult_le_pos; [|left; apply Rinv_0_lt_compat; assumption].
    apply Rmult_le_pos.
    + apply Rmult_le_pos; [lra|]. left. apply Rinv_0_lt_compat. assumption.
    + apply approx_sum_nonneg.
      apply Rmult_le_pos; [apply pow2_ge_0|]. left. apply Rinv_0_lt_compat. lra.
Qed.

Lemma market_in_range_positive fs x r b cp :
  market_in_range fs x r b cp -> 0 < fs /\ 0 < x.
Proof. unfold market_in_range, MIN_X, MIN_FS. intros (Hx & Hfs & _). lra. Qed.

(** X6.  For spot, strike, time, carry and rate inside the Domain Limits and
    a price of at most MAX32 in absolute value, whatever the option type,
    [_vol_implicite_approx] raises nothing, prints only what the check of
    the option type prints, and returns a non-negative estimate. *)
Theorem approx_returns_nonnegative (ot : string) (fs x t r b cp : R) :
  market_in_range fs x r b cp -> MIN_T <= t <= MAX_T ->
  exists v0 : R,
    _vol_implicite_approx ot fs x t r b cp = (log_of (_test_option_type ot), inr v0) /\
    0 <= v0.
Proof.
  intros Hm Ht. destruct (market_in_range_positive _ _ _ _ _ Hm) as [Hfs Hx].
  apply approx_positive_inputs; try assumption. unfold MIN_T in Ht. lra.
Qed.

Lemma approx_returns_nonnegative_witness :
  exists v0 : R,
    _vol_implicite_approx "c" 100 100 (1 / 2) (3 / 100) (2 / 100) (111 / 10) =
      (log_of (_test_option_type "c"), inr v0) /\ 0 <= v0.
Proof.
  apply (approx_returns_nonnegative "c" 100 100 (1 / 2) (3 / 100) (2 / 100) (111 / 10)).
  - unfold market_in_range, MIN_X, MAX_X, MIN_FS, MAX_FS, MIN_b, MAX_b, MIN_r, MAX_r,
      MAX32.
    rewrite Rabs_eval_pos by lra. lra.
  - unfold MIN_T, MAX_T. lra.
Defined.

Lemma approx_parity_eq (fs x t r b cp : R) :
  _vol_implicite_approx "p" fs x t r b
    (cp - (fs * exp ((b - r) * t) - x * exp (- r * t))) =
  _vol_implicite_approx "c" fs x t r b cp.
Proof.
  unfold _vol_implicite_approx.
  change (String.eqb "p" "c") with false. change (String.eqb "c" "c") with true.
  cbv zeta iota.
  set (E := exp ((b - r) * t)). set (D := exp (- r * t)).
  replace (cp - (fs * E - x * D) - (x * D - fs * E) / 2)
    with (cp - (fs * E - x * D) / 2) by field.
  replace ((x * D - fs * E) ^ 2 / PI) with ((fs * E - x * D) ^ 2 / PI)
    by (unfold Rdiv; ring).
  reflexivity.
Qed.

(** X7.  The starting point agrees with put-call parity: the estimate for a put
    priced cp - (spot e^((b-r)t) - strike e^(-rt)) is the estimate for the
    call priced cp, on every input (the same exception where one is
    raised). *)
Theorem approx_put_call_parity (fs x t r b cp : R) :
  _vol_implicite_approx "p" fs x t r b
    (cp - (fs * exp ((b - r) * t) - x * exp (- r * t))) =
  _vol_implicite_approx "c" fs x t r b cp.
Proof. exact (approx_parity_eq fs x t r b cp). Qed.

(** ** The solver past expiry *)

(** X8.  With spot, strike, carry and rate inside the Domain Limits, a price
    of at most MAX32 in absolute value and a negative time to expiry, down
    to -MAX_T, the starting point takes [math.sqrt] of a negative number:
    the solver raises [ValueError] before any evaluation of the pricing
    function. *)
Theorem solver_past_expiry_raises (ot : string) (fs x t r b cp precision : R)
    (max_steps : nat) :
  market_in_range fs x r b cp -> - MAX_T <= t < 0 ->
  outcome (_gbs_vol_implicite ot fs x t r b cp precision max_steps) = inl ValueError /\
  calls (log_of (_gbs_vol_implicite ot fs x t r b cp precision max_steps)) = [].
Proof.
  intros Hm Ht. destruct (market_in_range_positive _ _ _ _ _ Hm) as [Hfs Hx].
  pose proof (exp_pos ((b - r) * t)) as He. pose proof (exp_pos (- r * t)) as Hr.
  assert (Hden : 0 < fs * exp ((b - r) * t) + x * exp (- r * t)).
  { assert (0 < fs * exp ((b - r) * t)) by (apply Rmult_lt_0_compat; assumption).
    assert (0 < x * exp (- r * t)) by (apply Rmult_lt_0_compat; assumption). lra. }
  pose proof sqrt_2PI_pos as H2pi. pose proof PI_RGT_0 as Hpi.
  assert (Ha : outcome (_vol_implicite_approx ot fs x t r b cp) = inl ValueError).
  { unfold _vol_implicite_approx. cbv zeta.
    rewrite outcome_bind, test_option_type_outcome.
    rewrite math_sqrt_ok, bind_ret_l by lra.
    rewrite py_div_ok, bind_ret_l by lra.
    rewrite math_sqrt_ok, bind_ret_l by apply approx_radicand_nonneg.
    rewrite math_sqrt_bad by lra. reflexivity. }
  unfold _gbs_vol_implicite, _newton_vol_implicite. split.
  - rewrite outcome_bind, test_option_type_outcome.
    rewrite outcome_bind, Ha. reflexivity.
  - change (nocalls (_test_option_type ot ;;;
              v <- _vol_implicite_approx ot fs x t r b cp ;;
              (let v0 := Rmax MIN_V v in
               let v1 := Rmin MAX_V v0 in
               p <- call_val_fn _gbs ot fs x t r b v1 ;;
               (let min_diff := Rabs (cp - value_of p) in
                st <- newton_loop _gbs ot fs x t r b cp precision max_steps
                        (mk_newton v1 (value_of p) (vega_of p) min_diff) ;;
                newton_finish _gbs ot fs x t r b cp precision max_steps st)))).
    apply nocalls_bind; [apply nocalls_test_option_type|intros _].
    pose proof (nocalls_approx ot fs x t r b cp) as Hn.
    destruct (_vol_implicite_approx ot fs x t r b cp) as [l [e|v0]];
      [exact Hn|discriminate].
Qed.

Lemma solver_past_expiry_raises_witness :
  outcome (_gbs_vol_implicite "c" 100 100 (- (1 / 2)) (3 / 100) (2 / 100) (111 / 10)
             default_precision default_max_steps) = inl ValueError /\
  calls (log_of (_gbs_vol_implicite "c" 100 100 (- (1 / 2)) (3 / 100) (2 / 100)
                   (111 / 10) default_precision default_max_steps)) = [].
Proof.
  apply (solver_past_expiry_raises "c" 100 100 (- (1 / 2)) (3 / 100) (2 / 100)
           (111 / 10) default_precision default_max_steps).
  - unfold market_in_range, MIN_X, MAX_X, MIN_FS, MAX_FS, MIN_b, MAX_b, MIN_r, MAX_r,
      MAX32.
    rewrite Rabs_eval_pos by lra. lra.
  - unfold MAX_T. lra.
Defined.

(** ** How many times a search evaluates the pricing function *)

Lemma evaluations_bind {A B : Type} (m : M A) (f : A -> M B) (k1 k2 : nat) :
  (evaluations m <= k1)%nat -> (forall a, (evaluations (f a) <= k2)%nat) ->
  (evaluations (bind m f) <= k1 + k2)%nat.
Proof.
  unfold evaluations, log_of. intros Hm Hf.
  destruct m as [l [e|a]]; cbn [bind fst snd] in *; [lia|].
  rewrite calls_app, length_app. specialize (Hf a). lia.
Qed.

Lemma evaluations_nocalls {A : Type} (m : M A) : nocalls m -> (evaluations m <= 0)%nat.
Proof. unfold nocalls, evaluations. intros ->. reflexivity. Qed.

Section Evaluations.

Variable val_fn : pricer.
Variable option_type : string.
Variables fs x t r b cp precision : R.

Hypothesis val_fn_nocalls : forall v, nocalls (val_fn option_type fs x t r b v).

Lemma evaluations_call v :
  (evaluations (call_val_fn val_fn option_type fs x t r b v) <= 1)%nat.
Proof.
  unfold call_val_fn.
  apply (evaluations_bind (mark_call v) _ 1 0); [reflexivity|].
  intros _. apply evaluations_nocalls, val_fn_nocalls.
Qed.

Lemma evaluations_bisect_body st :
  (evaluations (bisect_body val_fn option_type fs x t r b cp st) <= 3)%nat.
Proof.
  unfold bisect_body. cbv zeta.
  apply (evaluations_bind _ _ 1 2); [apply evaluations_call|]. intros p_low.
  apply (evaluations_bind _ _ 1 1); [apply evaluations_call|]. intros p_high.
  apply (evaluations_bind _ _ 1 0); [apply evaluations_call|]. intros p_mid.
  apply evaluations_nocalls, nocalls_ret.
Qed.

Lemma evaluations_bisect_loop n : forall st,
  (evaluations (bisect_loop val_fn option_type fs x t r b cp precision n st)
   <= 3 * n)%nat.
Proof.
  induction n as [|n IH]; intros st; simpl bisect_loop.
  - apply evaluations_nocalls, nocalls_ret.
  - destruct (Rltb precision (diff st)).
    + replace (3 * S n)%nat with (3 + 3 * n)%nat by lia.
      apply evaluations_bind; [apply evaluations_bisect_body|exact IH].
    + apply Nat.le_trans with 0%nat; [apply evaluations_nocalls, nocalls_ret|lia].
Qed.

Lemma evaluations_rech_dichotomique max_steps :
  (evaluations (_rech_dichotomique_vol_implicite val_fn option_type fs x t r b cp
                  precision max_steps) <= 3 * max_steps + 1)%nat.
Proof.
  unfold _rech_dichotomique_vol_implicite.
  replace (3 * max_steps + 1)%nat with (0 + (1 + (3 * max_steps + 0)))%nat by lia.
  apply evaluations_bind; [apply evaluations_nocalls, nocalls_approx|].
  intros v0. cbv zeta.
  apply evaluations_bind; [apply evaluations_call|]. intros p.
  apply evaluations_bind; [apply evaluations_bisect_loop|]. intros st.
  apply evaluations_nocalls. unfold bisect_finish.
  destruct (Rltb _ _); reflexivity.
Qed.

Lemma evaluations_newton_body st :
  (evaluations (newton_body val_fn option_type fs x t r b cp st) <= 1)%nat.
Proof.
  unfold newton_body.
  apply (evaluations_bind _ _ 0 1); [apply evaluations_nocalls, nocalls_py_div|].
  intros d. cbv zeta. destruct (_ || _).
  - apply Nat.le_trans with 0%nat; [|lia]. apply evaluations_nocalls. reflexivity.
  - apply (evaluations_bind _ _ 1 0); [apply evaluations_call|]. intros p.
    apply evaluations_nocalls, nocalls_ret.
Qed.

Lemma evaluations_newton_loop n : forall st,
  (evaluations (newton_loop val_fn option_type fs x t r b cp precision n st)
   <= n)%nat.
Proof.
  induction n as [|n IH]; intros st; simpl newton_loop.
  - apply evaluations_nocalls, nocalls_ret.
  - destruct (newton_guard cp precision st).
    + replace (S n) with (1 + n)%nat by lia.
      apply evaluations_bind; [apply evaluations_newton_body|].
      intros [brk st']. cbn [fst snd]. destruct brk; [|apply IH].
      apply Nat.le_trans with 0%nat; [apply evaluations_nocalls, nocalls_ret|lia].
    + apply Nat.le_trans with 0%nat; [apply evaluations_nocalls, nocalls_ret|lia].
Qed.

Lemma evaluations_newton_vol_implicite max_steps :
  (evaluations (_newton_vol_implicite val_fn option_type x fs t b r cp precision
                  max_steps) <= 4 * max_steps + 2)%nat.
Proof.
  unfold _newton_vol_implicite.
  replace (4 * max_steps + 2)%nat
    with (0 + (0 + (1 + (max_steps + (3 * max_steps + 1)))))%nat by lia.
  apply evaluations_bind; [apply evaluations_nocalls, nocalls_test_option_type|].
  intros _.
  apply evaluations_bind; [apply evaluations_nocalls, nocalls_approx|].
  intros v0. cbv zeta.
  apply evaluations_bind; [apply evaluations_call|]. intros p.
  apply evaluations_bind; [apply evaluations_newton_loop|]. intros st.
  unfold newton_finish. destruct (Rltb _ _).
  - apply Nat.le_trans with 0%nat; [apply evaluations_nocalls, nocalls_ret|lia].
  - apply evaluations_rech_dichotomique.
Qed.

End Evaluations.

(** X10.  The solver evaluates the pricing function at most 4 max_steps + 2
    times (one evaluation at the starting point, at most one per
    Newton-Raphson pass, and the bracketing search), and the bracketing
    search on its own at most 3 max_steps + 1 times. *)
Theorem solver_evaluation_bound (ot : string) (fs x t r b cp precision : R)
    (max_steps : nat) :
  (length (calls (log_of (_gbs_vol_implicite ot fs x t r b cp precision max_steps)))
   <= 4 * max_steps + 2)%nat /\
  (length (calls (log_of (_rech_dichotomique_vol_implicite _gbs ot fs x t r b cp
                            precision max_steps)))
   <= 3 * max_steps + 1)%nat.
Proof.
  split.
  - apply (evaluations_newton_vol_implicite _gbs ot fs x t r b cp precision
             (nocalls_gbs ot fs x t r b)).
  - apply (evaluations_rech_dichotomique _gbs ot fs x t r b cp precision
             (nocalls_gbs ot fs x t r b)).
Qed.

(** ** How a search ends *)

Lemma ends_bind {A B : Type} (m : M A) (f : A -> M B)
    (Q1 : A -> Prop) (Q : B -> Prop) (P : exn -> Prop) :
  ends m Q1 P -> (forall a, Q1 a -> ends (f a) Q P) -> ends (bind m f) Q P.
Proof.
  unfold ends. rewrite outcome_bind.
  destruct (outcome m) as [e|a]; [trivial|]. intros Ha Hf. apply Hf, Ha.
Qed.

Lemma ends_ret {A : Type} (a : A) (Q : A -> Prop) (P : exn -> Prop) :
  Q a -> ends (ret a) Q P.
Proof. trivial. Qed.

Lemma ends_py_div_nonzero a d (P : exn -> Prop) :
  d <> 0 -> ends (py_div a d) (fun _ => True) P.
Proof. intros H. rewrite py_div_ok by assumption. exact I. Qed.

Section Outcomes.

Variable val_fn : pricer.
Variable option_type : string.
Variables fs x t r b cp precision : R.

(** In the band the pricing function returns, with a vega that is not 0,
    and the starting point is returned. *)
Hypothesis val_fn_returns :
  forall v, in_band v ->
    exists p, outcome (val_fn option_type fs x t r b v) = inr p /\ vega_of p <> 0.
Hypothesis approx_returns :
  exists v0, outcome (_vol_implicite_approx option_type fs x t r b cp) = inr v0.

Local Abbreviation failure :=
  (search_failure val_fn option_type fs x t r b cp precision).
Local Abbreviation priced := (priced val_fn option_type fs x t r b).
Local Abbreviation solves := (solves val_fn option_type fs x t r b cp precision).
Local Abbreviation bisect_ok := (bisect_ok val_fn option_type fs x t r b cp).
Local Abbreviation newton_ok := (newton_ok val_fn option_type fs x t r b).

Lemma ends_call v (P : exn -> Prop) :
  in_band v ->
  ends (call_val_fn val_fn option_type fs x t r b v)
       (fun p => priced v (value_of p) /\ vega_of p <> 0) P.
Proof.
  intros Hv. destruct (val_fn_returns v Hv) as [p [Hp Hvega]].
  unfold ends, call_val_fn. rewrite outcome_bind. cbn [outcome mark_call snd].
  change (snd (val_fn option_type fs x t r b v))
    with (outcome (val_fn option_type fs x t r b v)).
  rewrite Hp. split; [|assumption]. exists p. split; [assumption|reflexivity].
Qed.

Lemma ends_bisect_body st :
  bisect_ok st ->
  ends (bisect_body val_fn option_type fs x t r b cp st) bisect_ok failure.
Proof.
  intros (Hl & Hh & Hm & Hp & Hd). unfold bisect_body. cbv zeta.
  assert (Hl' : in_band (if Rltb (cp_mid st) cp then v_mid st else v_low st))
    by (destruct (Rltb _ _); assumption).
  assert (Hh' : in_band (if Rltb (cp_mid st) cp then v_high st else v_mid st))
    by (destruct (Rltb _ _); assumption).
  eapply ends_bind; [apply ends_call; assumption|]. intros p_low _.
  eapply ends_bind; [apply ends_call; assumption|]. intros p_high _.
  eapply ends_bind; [apply ends_call; apply in_band_interpolate|].
  intros p_mid [Hpm _].
  apply ends_ret. unfold bisect_ok; cbn [v_low v_high v_mid cp_mid diff].
  split; [assumption|]. split; [assumption|].
  split; [apply in_band_interpolate|]. split; [exact Hpm|reflexivity].
Qed.

Lemma ends_bisect_loop n : forall st,
  bisect_ok st ->
  ends (bisect_loop val_fn option_type fs x t r b cp precision n st)
       bisect_ok failure.
Proof.
  induction n as [|n IH]; intros st Hst; simpl bisect_loop.
  - apply ends_ret; assumption.
  - destruct (Rltb precision (diff st)).
    + eapply ends_bind; [apply ends_bisect_body; assumption|]. exact IH.
    + apply ends_ret; assumption.
Qed.

Lemma ends_bisect_finish st :
  bisect_ok st -> ends (bisect_finish cp precision st) solves failure.
Proof.
  intros (Hl & Hh & Hm & Hp & Hd). unfold bisect_finish.
  destruct (Rltb _ _) eqn:E.
  - apply Rltb_spec in E. apply ends_ret.
    split; [assumption|]. exists (cp_mid st). split; assumption.
  - apply Rltb_nspec in E. unfold ends, outcome, raise; cbn [snd].
    destruct Hp as [p [Hp Hval]].
    split; [reflexivity|]. split; [assumption|]. split; [lra|].
    exists p. split; [assumption|]. rewrite Hval. assumption.
Qed.

Lemma ends_rech_dichotomique max_steps :
  ends (_rech_dichotomique_vol_implicite val_fn option_type fs x t r b cp
          precision max_steps) solves failure.
Proof.
  unfold _rech_dichotomique_vol_implicite.
  destruct approx_returns as [v0 Hv0].
  eapply ends_bind with (Q1 := fun _ => True);
    [unfold ends; rewrite Hv0; exact I|].
  intros v _. cbv zeta.
  destruct (Rleb v MIN_V || Rleb MAX_V v) eqn:E.
  - assert (Hmid : in_band ((MIN_V + MAX_V) / 2))
      by (unfold in_band, MIN_V, MAX_V; lra).
    eapply ends_bind; [apply ends_call; exact Hmid|]. intros p [Hp _].
    eapply ends_bind; [|apply ends_bisect_finish].
    apply ends_bisect_loop. unfold bisect_ok; cbn [v_low v_high v_mid cp_mid diff].
    split; [unfold in_band, MIN_V, MAX_V; lra|].
    split; [unfold in_band, MIN_V, MAX_V; lra|].
    split; [exact Hmid|]. split; [exact Hp|reflexivity].
  - destruct (bisect_start_band v E) as (Hl & Hh & Hm).
    eapply ends_bind; [apply ends_call; exact Hm|]. intros p [Hp _].
    eapply ends_bind; [|apply ends_bisect_finish].
    apply ends_bisect_loop. unfold bisect_ok; cbn [v_low v_high v_mid cp_mid diff].
    split; [exact Hl|]. split; [exact Hh|]. split; [exact Hm|].
    split; [exact Hp|reflexivity].
Qed.

Lemma ends_newton_body st :
  newton_guard cp precision st = true -> newton_ok st ->
  ends (newton_body val_fn option_type fs x t r b cp st)
       (fun br => if fst br then precision <= Rabs (cp - nr_value (snd br))
                  else newton_ok (snd br))
       failure.
Proof.
  intros Hg (Hb & Hp & Hvega). apply newton_guard_spec in Hg. unfold newton_body.
  eapply ends_bind; [apply ends_py_div_nonzero; assumption|]. intros d _. cbv zeta.
  destruct (Rltb MAX_V (nr_v st - d) || Rltb (nr_v st - d) MIN_V) eqn:E.
  - eapply ends_bind with (Q1 := fun _ => True); [exact I|].
    intros _ _. apply ends_ret. cbn [fst snd nr_value]. lra.
  - apply orb_false_iff in E. destruct E as [E1 E2].
    apply Rltb_nspec in E1. apply Rltb_nspec in E2.
    assert (Hb' : in_band (nr_v st - d)) by (split; assumption).
    eapply ends_bind; [apply ends_call; exact Hb'|]. intros p [Hp' Hv'].
    apply ends_ret. cbn [fst snd]. split; [assumption|]. split; assumption.
Qed.

Lemma ends_newton_loop n : forall st,
  newton_ok st ->
  ends (newton_loop val_fn option_type fs x t r b cp precision n st)
       (fun st' => (in_band (nr_v st') /\ priced (nr_v st') (nr_value st'))
                   \/ precision <= Rabs (cp - nr_value st'))
       failure.
Proof.
  induction n as [|n IH]; intros st Hst; simpl newton_loop.
  - apply ends_ret. left. destruct Hst as (H1 & H2 & _). split; assumption.
  - destruct (newton_guard cp precision st) eqn:Hg.
    + eapply ends_bind; [apply ends_newton_body; assumption|].
      intros [brk st'] Hbr. cbn [fst snd] in *. destruct brk.
      * apply ends_ret. right; assumption.
      * apply IH; assumption.
    + apply ends_ret. left. destruct Hst as (H1 & H2 & _). split; assumption.
Qed.

Lemma ends_newton_vol_implicite max_steps :
  ends (_newton_vol_implicite val_fn option_type x fs t b r cp precision max_steps)
       solves failure.
Proof.
  unfold _newton_vol_implicite.
  eapply ends_bind with (Q1 := fun _ => True);
    [unfold ends; rewrite test_option_type_outcome; exact I|].
  intros _ _.
  destruct approx_returns as [v0 Hv0].
  eapply ends_bind with (Q1 := fun _ => True);
    [unfold ends; rewrite Hv0; exact I|].
  intros v _. cbv zeta.
  eapply ends_bind; [apply ends_call; apply in_band_clamp|]. intros p [Hp Hvega].
  eapply ends_bind.
  - apply ends_newton_loop. unfold newton_ok; cbn [nr_v nr_value nr_vega].
    split; [apply in_band_clamp|]. split; assumption.
  - intros st Hst. unfold newton_finish. destruct (Rltb _ _) eqn:E.
    + apply Rltb_spec in E. destruct Hst as [[Hb Hpr]|Hge]; [|lra].
      apply ends_ret. split; [assumption|]. exists (nr_value st). split; assumption.
    + apply ends_rech_dichotomique.
Qed.

End Outcomes.

(** X11.  For spot, strike, time, carry and rate inside the Domain Limits
    and a price of at most MAX32 in absolute value, whatever the precision
    and the option type, the solver ends in one of two ways: it returns a
    volatility of [MIN_V, MAX_V] at which [_gbs] reprices cp within the
    precision; or it raises [GBS_CalculationError] with a volatility v of
    [MIN_V, MAX_V], the residual |cp - value at v|, which is not below the
    precision, and the precision.  It raises neither [ZeroDivisionError]
    nor [ValueError]. *)
Theorem solver_outcomes (ot : string) (fs x t r b cp precision : R)
    (max_steps : nat) :
  market_in_range fs x r b cp -> MIN_T <= t <= MAX_T ->
  match outcome (_gbs_vol_implicite ot fs x t r b cp precision max_steps) with
  | inr v' =>
      MIN_V <= v' <= MAX_V /\
      exists p, outcome (_gbs ot fs x t r b v') = inr p /\
                Rabs (cp - value_of p) < precision
  | inl ZeroDivisionError => False
  | inl ValueError => False
  | inl (GBS_CalculationError v d pr) =>
      pr = precision /\ MIN_V <= v <= MAX_V /\ precision <= d /\
      exists p, outcome (_gbs ot fs x t r b v) = inr p /\
                d = Rabs (cp - value_of p)
  end.
Proof.
  intros Hm Ht0. destruct (market_in_range_positive _ _ _ _ _ Hm) as [Hfs Hx].
  assert (Ht : 0 < t) by (unfold MIN_T in Ht0; lra).
  assert (Hval : forall v, in_band v ->
            exists p, outcome (_gbs ot fs x t r b v) = inr p /\ vega_of p <> 0).
  { intros v [Hv _]. unfold MIN_V in Hv.
    destruct (gbs_positive_outcome ot fs x t r b v Hfs Hx Ht ltac:(lra))
      as [p [Hp [_ Hvega]]].
    exists p. split; [assumption|lra]. }
  assert (Happ : exists v0, outcome (_vol_implicite_approx ot fs x t r b cp) = inr v0).
  { destruct (approx_positive_inputs ot fs x t r b cp Hfs Hx Ht) as [v0 [H0 _]].
    exists v0. rewrite H0. reflexivity. }
  pose proof (ends_newton_vol_implicite _gbs ot fs x t r b cp precision Hval Happ
                max_steps) as H.
  unfold ends, _gbs_vol_implicite in *.
  destruct (outcome (_newton_vol_implicite _gbs ot x fs t b r cp precision max_steps))
    as [e|v'].
  - destruct e; exact H.
  - destruct H as [Hb [value [[p [Hp Hv]] Hlt]]].
    split; [exact Hb|]. exists p. split; [exact Hp|]. rewrite Hv. exact Hlt.
Qed.

Lemma solver_outcomes_witness :
  match outcome (_gbs_vol_implicite "c" 100 100 (1 / 2) (3 / 100) (2 / 100)
                   (111 / 10) default_precision default_max_steps) with
  | inr v' =>
      MIN_V <= v' <= MAX_V /\
      exists p, outcome (_gbs "c" 100 100 (1 / 2) (3 / 100) (2 / 100) v') = inr p /\
                Rabs (111 / 10 - value_of p) < default_precision
  | inl ZeroDivisionError => False
  | inl ValueError => False
  | inl (GBS_CalculationError v d pr) =>
      pr = default_precision /\ MIN_V <= v <= MAX_V /\ default_precision <= d /\
      exists p, outcome (_gbs "c" 100 100 (1 / 2) (3 / 100) (2 / 100) v) = inr p /\
                d = Rabs (111 / 10 - value_of p)
  end.
Proof.
  apply (solver_outcomes "c" 100 100 (1 / 2) (3 / 100) (2 / 100) (111 / 10)
           default_precision default_max_steps).
  - unfold market_in_range, MIN_X, MAX_X, MIN_FS, MAX_FS, MIN_b, MAX_b, MIN_r, MAX_r,
      MAX32.
    rewrite Rabs_eval_pos by lra. lra.
  - unfold MIN_T, MAX_T. lra.
Defined.

(** ** Put-call parity of the implied volatility *)

Lemma same_run_eq {A : Type} (m1 m2 : M A) : same_run eq m1 m2 -> m1 = m2.
Proof.
  destruct m1 as [l1 [e1|a1]]; destruct m2 as [l2 [e2|a2]];
    unfold same_run, log_of, outcome; cbn [fst snd]; intros [Hl Ho];
    try contradiction; subst; reflexivity.
Qed.

Lemma same_run_refl {A : Type} (m : M A) : same_run eq m m.
Proof.
  split; [reflexivity|]. destruct (outcome m); reflexivity.
Qed.

Lemma same_run_bind {A1 A2 B1 B2 : Type} (R : A1 -> A2 -> Prop)
    (S : B1 -> B2 -> Prop) (m1 : M A1) (m2 : M A2)
    (f1 : A1 -> M B1) (f2 : A2 -> M B2) :
  same_run R m1 m2 -> (forall a1 a2, R a1 a2 -> same_run S (f1 a1) (f2 a2)) ->
  same_run S (bind m1 f1) (bind m2 f2).
Proof.
  destruct m1 as [l1 [e1|a1]]; destruct m2 as [l2 [e2|a2]];
    unfold same_run, log_of, outcome; cbn [bind fst snd]; intros [Hl Ho] Hf;
    try contradiction; subst.
  - split; reflexivity.
  - destruct (Hf a1 a2 Ho) as [Hl' Ho']. split; [f_equal; exact Hl'|exact Ho'].
Qed.

Lemma same_run_ret {A B : Type} (R : A -> B -> Prop) a b :
  R a b -> same_run R (ret a) (ret b).
Proof. intros H. split; [reflexivity|exact H]. Qed.

Lemma interpolate_shift F v_low v_high cp cp_low cp_high :
  interpolate v_low v_high (cp - F) (cp_low - F) (cp_high - F) =
  interpolate v_low v_high cp cp_low cp_high.
Proof.
  unfold interpolate.
  replace (cp_high - F - (cp_low - F)) with (cp_high - cp_low) by ring.
  replace (cp - F - (cp_low - F)) with (cp - cp_low) by ring.
  reflexivity.
Qed.

Lemma Rltb_shift F a c : Rltb (a - F) (c - F) = Rltb a c.
Proof.
  destruct (Rlt_dec a c).
  - rewrite !Rltb_true by lra. reflexivity.
  - rewrite !Rltb_false by lra. reflexivity.
Qed.

(** The put is the call shifted by the parity term, on every input: the
    two runs of [_gbs] print the same, raise the same, and return the same
    vega and values that differ by spot e^((b-r)t) - strike e^(-rt). *)
Lemma gbs_put_is_shifted_call fs x t r b v :
  same_run (shifted (fs * exp ((b - r) * t) - x * exp (- r * t)))
    (_gbs "c" fs x t r b v) (_gbs "p" fs x t r b v).
Proof.
  unfold _gbs, _gbs_test_inputs.
  rewrite (test_option_type_valid "c"), (test_option_type_valid "p")
    by (auto).
  change (String.eqb "c" "c") with true. change (String.eqb "p" "c") with false.
  cbv iota.
  eapply same_run_bind; [apply same_run_refl|]. intros _ _ _.
  eapply same_run_bind; [apply same_run_refl|]. intros s ? <-.
  eapply same_run_bind; [apply same_run_refl|]. intros q ? <-.
  eapply same_run_bind; [apply same_run_refl|]. intros lg ? <-.
  eapply same_run_bind; [apply same_run_refl|]. intros d1 ? <-. cbv zeta.
  eapply same_run_bind; [apply same_run_refl|]. intros gamma ? <-.
  eapply same_run_bind; [apply same_run_refl|]. intros theta1 ? <-.
  apply same_run_ret. unfold shifted, value_of, vega_of.
  rewrite !norm_cdf_opp. split; [ring|reflexivity].
Qed.

Section ShiftedSearches.

Variables val_fn1 val_fn2 : pricer.
Variables ot1 ot2 : string.
Variables fs x t r b cp precision F : R.

Hypothesis val_fn_shifted :
  forall v, same_run (shifted F) (val_fn1 ot1 fs x t r b v) (val_fn2 ot2 fs x t r b v).
Hypothesis approx_same :
  _vol_implicite_approx ot2 fs x t r b (cp - F) =
  _vol_implicite_approx ot1 fs x t r b cp.
Hypothesis test_same : _test_option_type ot2 = _test_option_type ot1.

Lemma same_run_call v :
  same_run (shifted F) (call_val_fn val_fn1 ot1 fs x t r b v)
                       (call_val_fn val_fn2 ot2 fs x t r b v).
Proof.
  unfold call_val_fn.
  eapply same_run_bind; [apply same_run_refl|]. intros _ _ _. apply val_fn_shifted.
Qed.

Lemma same_run_bisect_body s1 s2 :
  bisect_shifted F s1 s2 ->
  same_run (bisect_shifted F)
    (bisect_body val_fn1 ot1 fs x t r b cp s1)
    (bisect_body val_fn2 ot2 fs x t r b (cp - F) s2).
Proof.
  destruct s1 as [vl1 vh1 vm1 cm1 d1]. destruct s2 as [vl2 vh2 vm2 cm2 d2].
  unfold bisect_shifted; cbn [v_low v_high v_mid cp_mid diff].
  intros (-> & -> & -> & -> & ->).
  unfold bisect_body; cbn [v_low v_high v_mid cp_mid diff]. cbv zeta.
  rewrite Rltb_shift.
  eapply same_run_bind; [apply same_run_call|]. intros p_low p_low' [Hl _].
  eapply same_run_bind; [apply same_run_call|]. intros p_high p_high' [Hh _].
  rewrite Hl, Hh, interpolate_shift.
  eapply same_run_bind; [apply same_run_call|]. intros p_mid p_mid' [Hm _].
  apply same_run_ret. unfold bisect_shifted; cbn [v_low v_high v_mid cp_mid diff].
  rewrite Hm. repeat split; try reflexivity. f_equal. ring.
Qed.

Lemma same_run_bisect_loop n : forall s1 s2,
  bisect_shifted F s1 s2 ->
  same_run (bisect_shifted F)
    (bisect_loop val_fn1 ot1 fs x t r b cp precision n s1)
    (bisect_loop val_fn2 ot2 fs x t r b (cp - F) precision n s2).
Proof.
  induction n as [|n IH]; intros s1 s2 Hs; simpl bisect_loop.
  - apply same_run_ret; assumption.
  - assert (Hd : diff s2 = diff s1) by apply Hs. rewrite Hd.
    destruct (Rltb precision (diff s1)).
    + eapply same_run_bind; [apply same_run_bisect_body; assumption|]. exact IH.
    + apply same_run_ret; assumption.
Qed.

Lemma same_run_bisect_finish s1 s2 :
  bisect_shifted F s1 s2 ->
  same_run eq (bisect_finish cp precision s1) (bisect_finish (cp - F) precision s2).
Proof.
  destruct s1 as [vl1 vh1 vm1 cm1 d1]. destruct s2 as [vl2 vh2 vm2 cm2 d2].
  unfold bisect_shifted; cbn [v_low v_high v_mid cp_mid diff].
  intros (-> & -> & -> & -> & ->).
  unfold bisect_finish; cbn [v_mid cp_mid diff].
  replace (cp - F - (cm1 - F)) with (cp - cm1) by ring.
  apply same_run_refl.
Qed.

Lemma same_run_rech_dichotomique max_steps :
  same_run eq
    (_rech_dichotomique_vol_implicite val_fn1 ot1 fs x t r b cp precision max_steps)
    (_rech_dichotomique_vol_implicite val_fn2 ot2 fs x t r b (cp - F) precision
       max_steps).
Proof.
  unfold _rech_dichotomique_vol_implicite. rewrite approx_same.
  eapply same_run_bind; [apply same_run_refl|]. intros v0 ? <-. cbv zeta.
  eapply same_run_bind; [apply same_run_call|]. intros p p' [Hp _].
  eapply same_run_bind; [|intros s1 s2; apply same_run_bisect_finish].
  apply same_run_bisect_loop.
  unfold bisect_shifted; cbn [v_low v_high v_mid cp_mid diff].
  rewrite Hp. repeat split; try reflexivity. f_equal. ring.
Qed.

Lemma same_run_newton_body s1 s2 :
  newton_shifted F s1 s2 ->
  same_run (fun br1 br2 => fst br2 = fst br1 /\ newton_shifted F (snd br1) (snd br2))
    (newton_body val_fn1 ot1 fs x t r b cp s1)
    (newton_body val_fn2 ot2 fs x t r b (cp - F) s2).
Proof.
  destruct s1 as [v1 val1 vg1 md1]. destruct s2 as [v2 val2 vg2 md2].
  unfold newton_shifted; cbn [nr_v nr_value nr_vega nr_min_diff].
  intros (-> & -> & -> & ->).
  unfold newton_body; cbn [nr_v nr_value nr_vega nr_min_diff].
  replace (val1 - F - (cp - F)) with (val1 - cp) by ring.
  eapply same_run_bind; [apply same_run_refl|]. intros d ? <-. cbv zeta.
  destruct (Rltb MAX_V (v1 - d) || Rltb (v1 - d) MIN_V).
  - eapply same_run_bind; [apply same_run_refl|]. intros _ _ _.
    apply same_run_ret. cbn [fst snd]. split; [reflexivity|].
    unfold newton_shifted; cbn [nr_v nr_value nr_vega nr_min_diff].
    repeat split; reflexivity.
  - eapply same_run_bind; [apply same_run_call|]. intros p p' [Hp Hvg].
    apply same_run_ret. cbn [fst snd]. split; [reflexivity|].
    unfold newton_shifted; cbn [nr_v nr_value nr_vega nr_min_diff].
    rewrite Hp, Hvg. repeat split; try reflexivity. f_equal. f_equal. ring.
Qed.

Lemma newton_guard_shifted s1 s2 :
  newton_shifted F s1 s2 ->
  newton_guard (cp - F) precision s2 = newton_guard cp precision s1.
Proof.
  intros (_ & Hv & _ & Hm). unfold newton_guard. rewrite Hv, Hm.
  replace (cp - F - (nr_value s1 - F)) with (cp - nr_value s1) by ring.
  reflexivity.
Qed.

Lemma same_run_newton_loop n : forall s1 s2,
  newton_shifted F s1 s2 ->
  same_run (newton_shifted F)
    (newton_loop val_fn1 ot1 fs x t r b cp precision n s1)
    (newton_loop val_fn2 ot2 fs x t r b (cp - F) precision n s2).
Proof.
  induction n as [|n IH]; intros s1 s2 Hs; simpl newton_loop.
  - apply same_run_ret; assumption.
  - rewrite (newton_guard_shifted s1 s2 Hs).
    destruct (newton_guard cp precision s1).
    + eapply same_run_bind; [apply same_run_newton_body; assumption|].
      intros [brk1 t1] [brk2 t2] [Hb Ht]. cbn [fst snd] in *. subst brk2.
      destruct brk1; [apply same_run_ret; assumption|apply IH; assumption].
    + apply same_run_ret; assumption.
Qed.

Lemma same_run_newton_vol_implicite max_steps :
  same_run eq
    (_newton_vol_implicite val_fn1 ot1 x fs t b r cp precision max_steps)
    (_newton_vol_implicite val_fn2 ot2 x fs t b r (cp - F) precision max_steps).
Proof.
  unfold _newton_vol_implicite. rewrite approx_same, test_same.
  eapply same_run_bind; [apply same_run_refl|]. intros _ _ _.
  eapply same_run_bind; [apply same_run_refl|]. intros v0 ? <-. cbv zeta.
  eapply same_run_bind; [apply same_run_call|]. intros p p' [Hp Hvg].
  eapply same_run_bind.
  - apply same_run_newton_loop.
    unfold newton_shifted; cbn [nr_v nr_value nr_vega nr_min_diff].
    rewrite Hp, Hvg. repeat split; try reflexivity. f_equal. ring.
  - intros s1 s2 Hs. unfold newton_finish.
    destruct Hs as (Hv & Hval & _ & _). rewrite Hv, Hval.
    replace (cp - F - (nr_value s1 - F)) with (cp - nr_value s1) by ring.
    destruct (Rltb _ _); [apply same_run_refl|].
    apply same_run_rech_dichotomique.
Qed.

End ShiftedSearches.

(** X12.  Put-call parity of the implied volatility.  On every input, the solver
    run for a put priced cp - (spot e^((b-r)t) - strike e^(-rt)) is the run
    for the call priced cp: the same log, and the same volatility returned
    or the same exception raised.  The same holds of the bracketing search
    on its own. *)
Theorem implied_vol_put_call_parity (fs x t r b cp precision : R)
    (max_steps : nat) :
  _gbs_vol_implicite "p" fs x t r b
    (cp - (fs * exp ((b - r) * t) - x * exp (- r * t))) precision max_steps =
  _gbs_vol_implicite "c" fs x t r b cp precision max_steps /\
  _rech_dichotomique_vol_implicite _gbs "p" fs x t r b
    (cp - (fs * exp ((b - r) * t) - x * exp (- r * t))) precision max_steps =
  _rech_dichotomique_vol_implicite _gbs "c" fs x t r b cp precision max_steps.
Proof.
  split; symmetry; apply same_run_eq.
  - unfold _gbs_vol_implicite.
    apply (same_run_newton_vol_implicite _gbs _gbs "c" "p").
    + intros v. apply gbs_put_is_shifted_call.
    + apply approx_parity_eq.
    + reflexivity.
  - apply (same_run_rech_dichotomique _gbs _gbs "c" "p").
    + intros v. apply gbs_put_is_shifted_call.
    + apply approx_parity_eq.
Qed.

(** ** The entry points *)

(** X13.  [black_scholes] is [garman_kohlhagen] with a foreign rate of 0: the
    same tuple returned or the same exception raised, and the same report.
    It runs [_gbs] a second time to return: when a tuple is returned,
    whatever [_gbs] prints (the diagnostics of out-of-range inputs) is
    written a second time, after the report. *)
Theorem black_scholes_is_garman_kohlhagen (ot : string) (fs x t r v : R) :
  snd (black_scholes ot fs x t r v) = snd (garman_kohlhagen ot fs x t r 0 v) /\
  fst (black_scholes ot fs x t r v) =
    fst (garman_kohlhagen ot fs x t r 0 v)
    ++ match snd (garman_kohlhagen ot fs x t r 0 v) with
       | inr _ => map Diag (log_of (_gbs ot fs x t r r v))
       | inl _ => []
       end.
Proof.
  unfold black_scholes, garman_kohlhagen. cbv zeta.
  replace (r - 0) with r by ring.
  destruct (_gbs ot fs x t r r v) as [l [e|p]] eqn:E; cbn [fst snd log_of outcome].
  - split; [reflexivity|]. rewrite app_nil_r. reflexivity.
  - split; [reflexivity|]. rewrite <- app_assoc. reflexivity.
Qed.

(** X14.  From a price to a volatility and back.  When [euro_vol_implicite],
    given a dividend yield q and a price cp, returns a volatility, that
    volatility lies in [MIN_V, MAX_V], and [garman_kohlhagen] with the
    foreign rate q returns at it a tuple whose value is within 10^-5 of
    cp. *)
Theorem euro_vol_implicite_reprices (ot : string) (fs x t r q cp v' : R) :
  outcome (euro_vol_implicite ot fs x t r q cp) = inr v' ->
  MIN_V <= v' <= MAX_V /\
  exists p : pricing,
    snd (garman_kohlhagen ot fs x t r q v') = inr p /\
    Rabs (cp - value_of p) < 1 / 100000.
Proof.
  unfold euro_vol_implicite, _gbs_vol_implicite. cbv zeta. intros E.
  destruct (newton_vol_implicite_sat _gbs ot fs x t r (r - q) cp default_precision
              (nocalls_gbs ot fs x t r (r - q)) default_max_steps) as [_ Hr].
  destruct (Hr v' E) as (Hb & value & (p & Hp & Hv) & Hlt).
  split; [exact Hb|]. exists p. split.
  - unfold garman_kohlhagen. cbv zeta.
    destruct (_gbs ot fs x t r (r - q) v') as [l [e|p0]];
      unfold outcome in Hp; cbn [snd] in *; [discriminate|exact Hp].
  - rewrite Hv. exact Hlt.
Qed.

Lemma euro_vol_implicite_reprices_witness :
  MIN_V <= atm_start <= MAX_V /\
  exists p : pricing,
    snd (garman_kohlhagen "c" 1 1 (1 / 100) 0 0 atm_start) = inr p /\
    Rabs (atm_price (1 / 2) - value_of p) < 1 / 100000.
Proof.
  apply (euro_vol_implicite_reprices "c" 1 1 (1 / 100) 0 0 (atm_price (1 / 2))
           atm_start).
  unfold euro_vol_implicite. cbv zeta.
  replace (0 - 0) with 0 by ring.
  rewrite atm_round_trip_run. reflexivity.
Defined.

(** ** Scaling spot and strike *)

Lemma d1_of_scaled k fs x t b v :
  k <> 0 -> x <> 0 -> d1_of (k * fs) (k * x) t b v = d1_of fs x t b v.
Proof.
  intros Hk Hx. unfold d1_of.
  replace (k * fs / (k * x)) with (fs / x) by (field; split; assumption).
  reflexivity.
Qed.

(** X15.  [_gbs] is homogeneous in (spot, strike): where the formula is defined,
    multiplying spot and strike by k > 0 multiplies value, theta, vega and
    rho by k, divides gamma by k and leaves delta unchanged, for either
    option type. *)
Theorem gbs_homogeneous (ot : string) (k fs x t r b v : R) :
  0 < k -> gbs_defined fs x t v ->
  exists p q : pricing,
    outcome (_gbs ot fs x t r b v) = inr p /\
    outcome (_gbs ot (k * fs) (k * x) t r b v) = inr q /\
    value_of q = k * value_of p /\ delta_of q = delta_of p /\
    gamma_of q = gamma_of p / k /\ theta_of q = k * theta_of p /\
    vega_of q = k * vega_of p /\ rho_of q = k * rho_of p.
Proof.
  intros Hk Hd.
  assert (Hd' : gbs_defined (k * fs) (k * x) t v).
  { destruct Hd as (Ht & Hx & Hq & Hv). unfold gbs_defined.
    split; [assumption|]. split.
    - apply Rmult_integral_contrapositive_currified; lra.
    - split; [|assumption].
      replace (k * fs / (k * x)) with (fs / x) by (field; split; lra). assumption. }
  assert (Hxne : x <> 0) by apply Hd.
  assert (Hkne : k <> 0) by lra.
  assert (Hvne : v <> 0).
  { intros ->. destruct Hd as (_ & _ & _ & Hv). apply Hv. ring. }
  assert (Hsne : sqrt t <> 0).
  { intros E. destruct Hd as (_ & _ & _ & Hv). apply Hv. rewrite E. ring. }
  assert (Hfne : fs <> 0).
  { intros ->. destruct Hd as (_ & _ & Hq & _). unfold Rdiv in Hq.
    rewrite Rmult_0_l in Hq. lra. }
  destruct (string_dec ot "c") as [-> | Hot].
  - pose proof (gbs_call_outcome fs x t r b v Hd) as Hp.
    pose proof (gbs_call_outcome (k * fs) (k * x) t r b v Hd') as Hq.
    cbv zeta in Hp, Hq. unfold d2_of in Hp, Hq.
    rewrite (d1_of_scaled k fs x t b v Hkne Hxne) in Hq.
    eexists. eexists. split; [exact Hp|]. split; [exact Hq|].
    unfold value_of, delta_of, gamma_of, theta_of, vega_of, rho_of.
    repeat split; try (unfold Rdiv; ring). field. repeat split; assumption.
  - pose proof (gbs_put_outcome ot fs x t r b v Hot Hd) as Hp.
    pose proof (gbs_put_outcome ot (k * fs) (k * x) t r b v Hot Hd') as Hq.
    cbv zeta in Hp, Hq. unfold d2_of in Hp, Hq.
    rewrite (d1_of_scaled k fs x t b v Hkne Hxne) in Hq.
    eexists. eexists. split; [exact Hp|]. split; [exact Hq|].
    unfold value_of, delta_of, gamma_of, theta_of, vega_of, rho_of.
    repeat split; try (unfold Rdiv; ring). field. repeat split; assumption.
Qed.

Lemma gbs_homogeneous_witness :
  exists p q : pricing,
    outcome (_gbs "c" (156 / 100) (160 / 100) (1 / 2) (6 / 100) (-2 / 100) (12 / 100))
      = inr p /\
    outcome (_gbs "c" (100 * (156 / 100)) (100 * (160 / 100)) (1 / 2) (6 / 100)
               (-2 / 100) (12 / 100)) = inr q /\
    value_of q = 100 * value_of p /\ delta_of q = delta_of p /\
    gamma_of q = gamma_of p / 100 /\ theta_of q = 100 * theta_of p /\
    vega_of q = 100 * vega_of p /\ rho_of q = 100 * rho_of p.
Proof.
  apply (gbs_homogeneous "c" 100 (156 / 100) (160 / 100) (1 / 2) (6 / 100)
           (-2 / 100) (12 / 100)); [lra|].
  apply positive_defined; lra.
Defined.

(** X9.  With a precision that is not positive the solver always raises. *)
Theorem solver_raises_without_positive_precision (ot : string)
    (fs x t r b cp precision : R) (max_steps : nat) :
  precision <= 0 ->
  exists e : exn,
    outcome (_gbs_vol_implicite ot fs x t r b cp precision max_steps) = inl e.
Proof.
  intros Hp.
  destruct (outcome (_gbs_vol_implicite ot fs x t r b cp precision max_steps))
    as [e|v] eqn:E.
  - exists e. reflexivity.
  - exfalso.
    exact (solver_needs_positive_precision ot fs x t r b cp precision max_steps Hp v E).
Qed.

Lemma solver_raises_without_positive_precision_witness :
  exists e : exn,
    outcome (_gbs_vol_implicite "c" 100 100 (1 / 2) (3 / 100) (2 / 100) (111 / 10)
               0 default_max_steps) = inl e.
Proof.
  apply (solver_raises_without_positive_precision "c" 100 100 (1 / 2) (3 / 100)
           (2 / 100) (111 / 10) 0 default_max_steps). lra.
Defined.
